(** * snowScatt: scattering interface and fall-speed models

    A shallow embedding of [python/_compute.py] and of
    [python/fallSpeed/_fallSpeedModels.py].

    Numbers.  The Python code computes with IEEE doubles through numpy.  Here
    a double is either a real number or the value [NaN], which stands for
    every double that is not a finite real (nan, +inf, -inf).  Arithmetic is
    exact on the reals (no rounding, no overflow) and an operation leaves the
    reals exactly where numpy leaves the finite doubles: division by zero,
    root or logarithm of a negative number, and so on.  [NaN] is absorbing
    (but for [x ** 0] and [1 ** y], which are 1), which differs from IEEE
    only where an infinity would turn finite again (x / inf, exp (-inf)).

    Arrays.  A numpy 1-D array is a [list]; an argument that may be a Python
    scalar or an array-like is an [arg]; binary numpy operations broadcast
    and raise on a shape mismatch. *)

From Stdlib Require Import Reals Lra Lia Psatz List String ZArith Bool.
Import ListNotations.

Open Scope R_scope.

(* ================================================================== *)
(** * Doubles *)
(* ================================================================== *)

Inductive double : Type :=
| Fin (r : R)
| NaN.

Coercion Fin : R >-> double.

Declare Scope double_scope.
Delimit Scope double_scope with D.
Bind Scope double_scope with double.

Definition lift1 (f : R -> R) (x : double) : double :=
  match x with
  | Fin a => Fin (f a)
  | NaN => NaN
  end.

Definition lift2 (f : R -> R -> R) (x y : double) : double :=
  match x, y with
  | Fin a, Fin b => Fin (f a b)
  | _, _ => NaN
  end.

Definition dadd : double -> double -> double := lift2 Rplus.
Definition dsub : double -> double -> double := lift2 Rminus.
Definition dmul : double -> double -> double := lift2 Rmult.
Definition dopp : double -> double := lift1 Ropp.

(** [x / 0] is inf or nan. *)
Definition ddiv (x y : double) : double :=
  match x, y with
  | Fin a, Fin b => if Req_dec_T b 0 then NaN else Fin (a / b)
  | _, _ => NaN
  end.

(** [np.sqrt]: nan below zero. *)
Definition np_sqrt (x : double) : double :=
  match x with
  | Fin a => if Rlt_dec a 0 then NaN else Fin (sqrt a)
  | NaN => NaN
  end.

(** [np.log10]: -inf at zero, nan below. *)
Definition np_log10 (x : double) : double :=
  match x with
  | Fin a => if Rlt_dec 0 a then Fin (ln a / ln 10) else NaN
  | NaN => NaN
  end.

Definition np_exp : double -> double := lift1 exp.
Definition np_sin : double -> double := lift1 sin.
Definition np_cos : double -> double := lift1 cos.
Definition np_abs : double -> double := lift1 Rabs.

(** [np.maximum] and [np.minimum] propagate nan. *)
Definition np_maximum : double -> double -> double := lift2 Rmax.
Definition np_minimum : double -> double -> double := lift2 Rmin.

(** [a ** b] on finite doubles, as C's [pow]: a positive base takes any
    exponent; zero to a positive power is zero, to the power zero one, to a
    negative power inf; a negative base takes integer exponents only. *)
Definition pow_fin (a b : R) : double :=
  if Rlt_dec 0 a then Fin (Rpower a b)
  else if Req_dec_T a 0 then
    (if Rlt_dec 0 b then Fin 0 else if Req_dec_T b 0 then Fin 1 else NaN)
  else
    (if Req_dec_T (IZR (Int_part b)) b then Fin (powerRZ a (Int_part b))
     else NaN).

(** [x ** y]; [pow] answers 1 for [x ** 0] and [1 ** y] whatever the other
    operand. *)
Definition dpow (x y : double) : double :=
  match x, y with
  | Fin a, Fin b => pow_fin a b
  | NaN, Fin b => if Req_dec_T b 0 then Fin 1 else NaN
  | Fin a, NaN => if Req_dec_T a 1 then Fin 1 else NaN
  | NaN, NaN => NaN
  end.

Infix "+" := dadd : double_scope.
Infix "-" := dsub : double_scope.
Infix "*" := dmul : double_scope.
Infix "/" := ddiv : double_scope.
Notation "- x" := (dopp x) : double_scope.
Infix "**" := dpow (at level 30, right associativity) : double_scope.

(** Order on doubles: both finite and ordered as reals.  [0 <d x] says that
    [x] is a finite, strictly positive number. *)
Definition dlt (x y : double) : Prop :=
  match x, y with
  | Fin a, Fin b => a < b
  | _, _ => False
  end.

Infix "<d" := dlt (at level 70, no associativity).

(* ================================================================== *)
(** * Exceptions and arrays *)
(* ================================================================== *)

(** The two exceptions of the scattering interface: the [AttributeError]
    that [_prepare_input] raises itself (the spec's MissingConfiguration)
    and numpy's [ValueError] for operands that do not broadcast (the spec's
    DimensionMismatch). *)
Inductive error : Type :=
| MissingConfiguration
| DimensionMismatch.

Inductive result (A : Type) : Type :=
| Ok (a : A)
| Raise (e : error).

Arguments Ok {A} a.
Arguments Raise {A} e.

Definition bind {A B : Type} (r : result A) (k : A -> result B) : result B :=
  match r with
  | Ok a => k a
  | Raise e => Raise e
  end.

Notation "x <- r ;; k" := (bind r (fun x => k))
  (at level 61, r at next level, right associativity).

(** A Python scalar or an array-like. *)
Inductive arg (A : Type) : Type :=
| Scalar (x : A)
| Array (xs : list A).

Arguments Scalar {A} x.
Arguments Array {A} xs.

Fixpoint zip_with {A B C : Type} (f : A -> B -> C)
         (xs : list A) (ys : list B) : list C :=
  match xs, ys with
  | x :: xs', y :: ys' => f x y :: zip_with f xs' ys'
  | _, _ => []
  end.

(** numpy broadcasting of a binary operation over two 1-D arrays: equal
    lengths go elementwise, a length-1 operand is stretched, anything else
    raises. *)
Definition broadcast {A B C : Type} (f : A -> B -> C)
           (xs : list A) (ys : list B) : result (list C) :=
  if Nat.eqb (List.length xs) (List.length ys) then Ok (zip_with f xs ys)
  else match xs, ys with
       | [x], _ => Ok (map (f x) ys)
       | _, [y] => Ok (map (fun x => f x y) xs)
       | _, _ => Raise DimensionMismatch
       end.

(** A scalar-or-array operand against a 1-D array. *)
Definition np_op {A B C : Type} (f : A -> B -> C)
           (x : arg A) (ys : list B) : result (list C) :=
  match x with
  | Scalar s => Ok (map (f s) ys)
  | Array xs => broadcast f xs ys
  end.

(** [np.ones_like]. *)
Definition ones_like {A : Type} (xs : list A) : list double :=
  map (fun _ => Fin 1) xs.

(** Complex doubles, for the refractive index and the polarizability. *)
Record complex : Type := Cplx { re : double; im : double }.

(** [z * r] for complex [z] and real [r]: numpy promotes [r] to [r + 0j]. *)
Definition cmul_real (z : complex) (r : double) : complex :=
  Cplx (re z * r - im z * Fin 0)%D (re z * Fin 0 + im z * r)%D.

(* ================================================================== *)
(** * What the two modules import *)
(* ================================================================== *)

(** [snowScatt._constants]: the table is not part of the two files; its
    entries are parameters. *)
Class Constants : Type := {
  _c : double;            (* speed of light *)
  _ice_density : double;
  _g : double;            (* standard gravity *)
  _nu0 : double           (* standard kinematic viscosity of air *)
}.

(** Modelled from the spec: the constant [_rho0] of [snowScatt._constants],
    the standard air density.  Its value is the one the spec gives for the
    default reference density and the docstring of [correctionFooteduToit]
    gives for the standard conditions. *)
Definition _rho0 : double := Fin 1.2038631624242195.

(** What [snowLibrary(diameters, properties)] returns: nine arrays, unpacked
    by the callers. *)
Definition lookup : Type :=
  (list double * list double * list double * list double * list double *
   list double * list double * list double * list double)%type.

(** What [ssrga] returns: Cext, Cabs, Csca, Cbck, asym, phase. *)
Definition scattering : Type :=
  (list double * list double * list double * list double * list double *
   list (list double))%type.

(** The property database, the refractive-index model of ice and the native
    SSRGA kernel.  They are called, not defined, by [_compute.py], and are
    taken as total functions. *)
Class Externals : Type := {
  snowLibrary : list double -> string -> lookup;
  (* ice.n(temperature, frequency, matzlerCheckTemperature=True) *)
  ice_n : list double -> list double -> list complex;
  hexPrismK : list complex -> list double -> list complex;
  ssrga : list double -> list double -> list double -> list complex ->
          list double -> list double -> list double -> list double ->
          Z -> scattering;
  ssrgaBack : list double -> list double -> list double -> list complex ->
              list double -> list double -> list double -> list double ->
              list double
}.

(** Modelled from the spec: the native kernel (ssrgalib) is not part of the
    two files.  The spec describes its backscatter-only solve as the full
    solve without the phase function and the angular integration, returning
    the backscattering cross section only: the fourth output of the full
    solve, whatever the number of angles. *)
Definition kernel_consistent (E : Externals) : Prop :=
  forall Deff Vol wavelength K kappa gamma beta zeta1 Nangles,
    (let '(_, _, _, Cbck, _, _) :=
       ssrga Deff Vol wavelength K kappa gamma beta zeta1 Nangles in Cbck)
    = ssrgaBack Deff Vol wavelength K kappa gamma beta zeta1.

(* ================================================================== *)
(** * python/_compute.py *)
(* ================================================================== *)

Module Compute.
Section Interface.

Context {consts : Constants} {ext : Externals}.

Local Open Scope double_scope.

(** The formula is written for scalars; numpy applies it elementwise. *)
Definition _compute_effective_size (size ar angle : double) : double :=
  size / np_sqrt (np_sin angle ** 2 + (np_cos angle / ar) ** 2).

Definition _convert_to_array {A : Type} (x : arg A) : list A :=
  match x with
  | Scalar s => [s]
  | Array xs => xs
  end.

(** The tuple [_prepare_input] returns. *)
Definition prepared : Type :=
  (list double * list double * list double * list complex * list double *
   list double * list double * list double * list double * list double *
   list double)%type.

Definition _prepare_input
           (diameters wavelength : arg double) (properties : string)
           (ref_index : option (arg complex))
           (temperature mass : option (arg double))
           (theta : double) : result prepared :=
  let diameters := _convert_to_array diameters in
  wavelength <- np_op dmul wavelength (ones_like diameters) ;;
  ref_index <-
    match ref_index with
    | None =>
        match temperature with
        | None => Raise MissingConfiguration
        | Some temperature =>
            temperature <- np_op dmul temperature (ones_like diameters) ;;
            Ok (ice_n temperature (map (fun w => _c / w) wavelength))
        end
    | Some ref_index => np_op cmul_real ref_index (ones_like diameters)
    end ;;
  let '(kappa, beta, gamma, zeta1, alpha_eff, ar_mono, mass_prop, vel, area) :=
    snowLibrary diameters properties in
  mass <-
    match mass with
    | None => Ok mass_prop
    | Some mass => np_op dmul mass (ones_like diameters)
    end ;;
  let Vol := map (fun m => m / _ice_density) mass in
  let K := hexPrismK ref_index ar_mono in
  Deff <- broadcast (fun size ar => _compute_effective_size size ar theta)
                    diameters alpha_eff ;;
  Ok (Deff, Vol, wavelength, K, kappa, gamma, beta, zeta1,
      mass_prop, vel, area).

Definition calcProperties
           (diameters wavelength : arg double) (properties : string)
           (ref_index : option (arg complex))
           (temperature mass : option (arg double))
           (theta : double) (Nangles : Z) :=
  params <- _prepare_input diameters wavelength properties
                           ref_index temperature mass theta ;;
  let '(Deff, Vol, wavelength, K, kappa, gamma, beta, zeta1,
        mass_prop, vel, area) := params in
  let '(Cext, Cabs, Csca, Cbck, asym, phase) :=
    ssrga Deff Vol wavelength K kappa gamma beta zeta1 Nangles in
  Ok (Cext, Cabs, Csca, Cbck, asym, phase, mass_prop, vel, area).

Definition backscatter
           (diameters wavelength : arg double) (properties : string)
           (ref_index : option (arg complex))
           (temperature mass : option (arg double))
           (theta : double) :=
  params <- _prepare_input diameters wavelength properties
                           ref_index temperature mass theta ;;
  let '(Deff, Vol, wavelength, K, kappa, gamma, beta, zeta1,
        mass_prop, vel, area) := params in
  Ok (ssrgaBack Deff Vol wavelength K kappa gamma beta zeta1).

Definition backscatVel
           (diameters wavelength : arg double) (properties : string)
           (ref_index : option (arg complex))
           (temperature mass : option (arg double))
           (theta : double) :=
  params <- _prepare_input diameters wavelength properties
                           ref_index temperature mass theta ;;
  let '(Deff, Vol, wavelength, K, kappa, gamma, beta, zeta1,
        mass_prop, vel, area) := params in
  Ok (ssrgaBack Deff Vol wavelength K kappa gamma beta zeta1, vel).

Definition snowMassVelocityArea (diameters : arg double) (properties : string) :=
  let diameters := _convert_to_array diameters in
  let '(_, _, _, _, _, _, mass, vel, area) :=
    snowLibrary diameters properties in
  (mass, vel, area).

End Interface.

(** Default values of the optional arguments. *)
Definition theta_default : double := Fin 0.
Definition Nangles_default : Z := 181.

End Compute.

(* ================================================================== *)
(** * python/fallSpeed/_fallSpeedModels.py *)
(* ================================================================== *)

Module FallSpeed.
Section Models.

Context {consts : Constants}.

Local Open Scope double_scope.

(** The local names of the imports: [_g as g], [_ice_density as rho_ice]. *)
Definition g : double := _g.
Definition rho_ice : double := _ice_density.

(** [np.ones_like] of a scalar. *)
Definition np_ones_like (x : double) : double := Fin 1.

Definition T0_default : double := Fin 293.15.

(** [vel] is an array; densities and temperatures are scalars. *)
Definition correctionFooteduToit (vel : list double)
           (rho_air temperature rho0 T0 : double) : list double :=
  let log_density_scale := np_log10 (rho0 / rho_air) in
  let Y := 0.43 * log_density_scale - 0.4 * log_density_scale ** 2.5 in
  map (fun v =>
         v * 10 ** Y
         * (1 + (0.0023 * (1.1 - (rho_air / rho0)) * (T0 - temperature))))
      vel.

(** The four models are elementwise in [diam], [mass] and [area]; each
    definition is the computation for one particle. *)
Definition Boehm1992 (diam mass area rho_air nu_air as_ratio : double)
  : double :=
  let q := area / (PI / 4 * diam ** 2) in
  let eta_air := nu_air * rho_air in
  let alpha := as_ratio in
  let X_0 : double := 2.8e6 in
  let X := 8 * mass * g * rho_air
           / (PI * (eta_air ** 2)
              * np_maximum alpha (np_ones_like alpha * 1)
              * np_maximum (q ** 0.25) q) in
  let k : double := 1 in
  let gama_big :=
    np_maximum (np_ones_like alpha * 1)
               (np_minimum (np_ones_like alpha * 1.98)
                           (3.76 - 8.41 * alpha + 9.18 * alpha ** 2
                            - 3.53 * alpha ** 3)) in
  let C_DP := np_maximum (0.292 * k * gama_big)
                         (0.492 - 0.2 / np_sqrt alpha) in
  let C_DP := np_maximum 1 (q * (1.46 * q - 0.46)) * C_DP in
  let C_DP_prim := C_DP * (1 + 1.6 * (X / X_0) ** 2)
                   / (1 + (X / X_0) ** 2) in
  let beta := np_sqrt (1 + C_DP_prim / 6 / k * np_sqrt (X / C_DP_prim))
              - 1 in
  let N_Re0 := 6 * k / C_DP_prim * beta ** 2 in
  let C_DO := 4.5 * k ** 2 * np_maximum alpha (np_ones_like alpha * 1) in
  let gama_small := (C_DO - C_DP) / 4 / C_DP in
  let N_Re := N_Re0
              * (1 + (2 * beta * np_exp ((- beta) * gama_small))
                     / ((2 + beta) * (1 + beta))) in
  let vterm_bohm := N_Re * eta_air / diam / rho_air in
  vterm_bohm.

Definition Boehm1989 (diam mass area rho_air nu_air : double) : double :=
  let q := area / (PI / 4 * diam ** 2) in
  let eta_air := nu_air * rho_air in
  let X := 8 * mass * g * rho_air / (PI * (eta_air ** 2) * q ** 0.25) in
  let Re := 8.5 * ((1 + 0.1519 * X ** 0.5) ** 0.5 - 1) ** 2 in
  let vterm_bohm := Re * eta_air / diam / rho_air in
  vterm_bohm.

Definition HeymsfieldWestbrook2010
           (diaSpec mass area rho_air nu_air k : double) : double :=
  let delta_0 : double := 8 in
  let C_0 : double := 0.35 in
  let area_proj := area / ((PI / 4) * diaSpec ** 2) in
  let eta := nu_air * rho_air in
  let Xstar := 8 * rho_air * mass * g
               / (PI * area_proj ** (1 - k) * eta ** 2) in
  let Re := 0.25 * delta_0 ** 2
            * ((1 + ((4 * Xstar ** 0.5) / (delta_0 ** 2 * C_0 ** 0.5)))
                 ** 0.5 - 1) ** 2 in
  let velSpec := eta * Re / (rho_air * diaSpec) in
  velSpec.

Definition X2Cd_kc05rough (Xbest : double) : double :=
  let do_i : double := 5.83 in
  let co_i : double := 0.6 in
  let Ct : double := 1.6 in
  let X0_i : double := 0.35714285714285714285e-6 in
  let c1 := 4 / (do_i ** 2 * np_sqrt co_i) in
  let c2 := 0.25 * do_i ** 2 in
  let bracket := np_sqrt (1 + c1 * np_sqrt Xbest) - 1 in
  let psi := (1 + (Xbest * X0_i) ** 2) / (1 + Ct * (Xbest * X0_i) ** 2) in
  let Re := c2 * bracket ** 2 in
  co_i * (1 + do_i / np_sqrt Re) ** 2 / psi.

Definition X2Cd_kc05smooth (Xbest : double) : double :=
  let do_i : double := 9.06 in
  let co_i : double := 0.292 in
  let Ct : double := 1.6 in
  let X0_i := 1 / 6.7e6 in
  let c1 := 4 / (do_i ** 2 * np_sqrt co_i) in
  let c2 := 0.25 * do_i ** 2 in
  let bracket := np_sqrt (1 + c1 * np_sqrt Xbest) - 1 in
  let psi := (1 + (Xbest * X0_i) ** 2) / (1 + Ct * (Xbest * X0_i) ** 2) in
  let Re := c2 * bracket ** 2 in
  co_i * (1 + do_i / np_sqrt Re) ** 2 / psi.

Definition KhvorostyanovCurry2005
           (diam mass area rho_air nu_air : double) (smooth : bool)
  : double :=
  let Vb := mass / rho_ice in
  let Fb := rho_air * Vb * g in
  let eta_air := nu_air * rho_air in
  let Xbest := 2 * np_abs (mass * g - Fb) * rho_air * diam ** 2
               / (area * eta_air ** 2) in
  let Cd := if smooth then X2Cd_kc05smooth Xbest
            else X2Cd_kc05rough Xbest in
  np_sqrt (2 * np_abs (mass * g - Fb) / (rho_air * area * Cd)).

(** Modelled from the spec: the Boehm 1989 formulas as the spec writes them,
    with square roots and a single final division. *)
Definition Boehm1989_spec (diam mass area rho_air nu_air : double) : double :=
  let q := area / ((PI / 4) * diam ** 2) in
  let eta := nu_air * rho_air in
  let X := 8 * mass * g * rho_air / (PI * eta ** 2 * q ** 0.25) in
  let Re := 8.5 * (np_sqrt (1 + 0.1519 * np_sqrt X) - 1) ** 2 in
  Re * eta / (diam * rho_air).

End Models.
End FallSpeed.

(* ================================================================== *)
(** * Components of the tuples *)
(* ================================================================== *)

Definition first_of (L : lookup) : list double :=
  let '(x1, _, _, _, _, _, _, _, _) := L in x1.
Definition second_of (L : lookup) : list double :=
  let '(_, x2, _, _, _, _, _, _, _) := L in x2.
Definition third_of (L : lookup) : list double :=
  let '(_, _, x3, _, _, _, _, _, _) := L in x3.
Definition fourth_of (L : lookup) : list double :=
  let '(_, _, _, x4, _, _, _, _, _) := L in x4.
Definition fifth_of (L : lookup) : list double :=
  let '(_, _, _, _, x5, _, _, _, _) := L in x5.
Definition sixth_of (L : lookup) : list double :=
  let '(_, _, _, _, _, x6, _, _, _) := L in x6.
Definition seventh_of (L : lookup) : list double :=
  let '(_, _, _, _, _, _, x7, _, _) := L in x7.
Definition eighth_of (L : lookup) : list double :=
  let '(_, _, _, _, _, _, _, x8, _) := L in x8.
Definition ninth_of (L : lookup) : list double :=
  let '(_, _, _, _, _, _, _, _, x9) := L in x9.

(** The fields of what [_prepare_input] returns, in the order of its
    [return] statement. *)
Definition out_Deff (o : Compute.prepared) : list double :=
  let '(Deff, _, _, _, _, _, _, _, _, _, _) := o in Deff.
Definition out_Vol (o : Compute.prepared) : list double :=
  let '(_, Vol, _, _, _, _, _, _, _, _, _) := o in Vol.
Definition out_wavelength (o : Compute.prepared) : list double :=
  let '(_, _, wavelength, _, _, _, _, _, _, _, _) := o in wavelength.
Definition out_K (o : Compute.prepared) : list complex :=
  let '(_, _, _, K, _, _, _, _, _, _, _) := o in K.
Definition out_kappa (o : Compute.prepared) : list double :=
  let '(_, _, _, _, kappa, _, _, _, _, _, _) := o in kappa.
Definition out_gamma (o : Compute.prepared) : list double :=
  let '(_, _, _, _, _, gamma, _, _, _, _, _) := o in gamma.
Definition out_beta (o : Compute.prepared) : list double :=
  let '(_, _, _, _, _, _, beta, _, _, _, _) := o in beta.
Definition out_zeta1 (o : Compute.prepared) : list double :=
  let '(_, _, _, _, _, _, _, zeta1, _, _, _) := o in zeta1.
Definition out_mass_prop (o : Compute.prepared) : list double :=
  let '(_, _, _, _, _, _, _, _, mass_prop, _, _) := o in mass_prop.
Definition out_vel (o : Compute.prepared) : list double :=
  let '(_, _, _, _, _, _, _, _, _, vel, _) := o in vel.
Definition out_area (o : Compute.prepared) : list double :=
  let '(_, _, _, _, _, _, _, _, _, _, area) := o in area.

(** What [calcProperties] returns. *)
Definition properties_result : Type :=
  (list double * list double * list double * list double * list double *
   list (list double) * list double * list double * list double)%type.

Definition Cbck_of (r : properties_result) : list double :=
  let '(_, _, _, Cbck, _, _, _, _, _) := r in Cbck.
Definition mass_of (r : properties_result) : list double :=
  let '(_, _, _, _, _, _, mass_prop, _, _) := r in mass_prop.

(** The return value of [calcProperties], from what the kernel returned and
    the three arrays of the lookup. *)
Definition with_lookup (s : scattering) (mass_prop vel area : list double)
  : properties_result :=
  let '(Cext, Cabs, Csca, Cbck, asym, phase) := s in
  (Cext, Cabs, Csca, Cbck, asym, phase, mass_prop, vel, area).

(** The velocity in what [snowMassVelocityArea] returns. *)
Definition velocity_of (r : list double * list double * list double)
  : list double :=
  let '(_, vel, _) := r in vel.

(** Two calls, with the same label and angle, give the same result in each
    of the three scattering operations. *)
Definition same_scattering {consts : Constants} {ext : Externals}
           (p : string) (theta : double)
           (d1 wl1 : arg double) (ri1 : option (arg complex))
           (T1 m1 : option (arg double))
           (d2 wl2 : arg double) (ri2 : option (arg complex))
           (T2 m2 : option (arg double)) : Prop :=
  (forall n, Compute.calcProperties d1 wl1 p ri1 T1 m1 theta n
             = Compute.calcProperties d2 wl2 p ri2 T2 m2 theta n)
  /\ Compute.backscatter d1 wl1 p ri1 T1 m1 theta
     = Compute.backscatter d2 wl2 p ri2 T2 m2 theta
  /\ Compute.backscatVel d1 wl1 p ri1 T1 m1 theta
     = Compute.backscatVel d2 wl2 p ri2 T2 m2 theta.

(** Whether a scalar-or-array operand broadcasts against a 1-D array of
    length [n]. *)
Definition broadcastable {A : Type} (x : arg A) (n : nat) : bool :=
  match x with
  | Scalar _ => true
  | Array xs =>
      Nat.eqb (List.length xs) n || Nat.eqb (List.length xs) 1 || Nat.eqb n 1
  end.

(* ================================================================== *)
(** * Sample imports, to run the definitions on concrete inputs *)
(* ================================================================== *)

Module Sample.

Definition constants : Constants :=
  {| _c := Fin 299792458;
     _ice_density := Fin 917;
     _g := Fin 9.80665;
     _nu0 := Fin 1.5e-5 |}.

Definition filled (v : R) (xs : list double) : list double :=
  map (fun _ => Fin v) xs.

(** A database whose nine arrays are filled with 1, ..., 9. *)
Definition library (diameters : list double) (label : string) : lookup :=
  (filled 1 diameters, filled 2 diameters, filled 3 diameters,
   filled 4 diameters, filled 5 diameters, filled 6 diameters,
   filled 7 diameters, filled 8 diameters, filled 9 diameters).

(** A kernel that hands its inputs back; the backscatter-only solve returns
    the fourth output of the full solve. *)
Definition externals : Externals :=
  {| snowLibrary := library;
     ice_n := fun temperature _ => map (fun _ => Cplx (Fin 1.78) (Fin 0)) temperature;
     hexPrismK := fun ref_index _ => ref_index;
     ssrga := fun Deff Vol wavelength K kappa gamma beta zeta1 Nangles =>
                (Deff, Vol, wavelength, gamma, beta, [zeta1]);
     ssrgaBack := fun Deff Vol wavelength K kappa gamma beta zeta1 => gamma |}.

Definition diameters : arg double := Array [Fin 0.001; Fin 0.002].
Definition wavelength : arg double := Scalar (Fin 0.003).
Definition label : string := "sample"%string.
Definition ref_index : arg complex := Scalar (Cplx (Fin 1.78) (Fin 0.001)).
Definition mass : arg double := Scalar (Fin 1e-6).

End Sample.

(* ================================================================== *)
(** * Real-valued forms *)
(* ================================================================== *)

(** On positive finite arguments the models compute with real numbers only.
    These are the real functions they compute, in the shape of the code. *)

(** [sqrt (1 + u) - 1], the bracket of all four Reynolds numbers. *)
Definition bracket (u : R) : R := sqrt (1 + u) - 1.

(** Boehm 1992: [C_DP_prim], [beta], [N_Re0] and [N_Re] as functions of the
    Best number [X], for a drag coefficient [C] (the second [C_DP]), the
    constant [X0] and the exponent [gamma] ([gama_small]), with [k = 1]. *)
Definition Cp (C X0 X : R) : R :=
  C * (1 + 1.6 * (X / X0 * (X / X0))) / (1 + X / X0 * (X / X0)).

Definition beta_of (C X0 X : R) : R :=
  sqrt (1 + Cp C X0 X / 6 / 1 * sqrt (X / Cp C X0 X)) - 1.

Definition N_Re0_of (C X0 X : R) : R :=
  6 * 1 / Cp C X0 X * (beta_of C X0 X * beta_of C X0 X).

Definition N_Re_of (C X0 gamma X : R) : R :=
  N_Re0_of C X0 X
  * (1 + 2 * beta_of C X0 X * exp (- beta_of C X0 X * gamma)
         / ((2 + beta_of C X0 X) * (1 + beta_of C X0 X))).

(** [N_Re] divided by [sqrt (X / C_DP_prim)], as a function of [beta], and
    its derivative. *)
Definition G (gamma b : R) : R :=
  b / (b + 2) * (1 + (2 * b * exp (- b * gamma)) / ((2 + b) * (1 + b))).

Definition dG (gamma b : R) : R :=
  2 / ((b + 2) * (b + 2))
  * (1 + exp (- b * gamma) * (b / (1 + b))
         * ((4 + 2 * b - b * b) / ((b + 2) * (1 + b)) - gamma * b)).

(** Khvorostyanov and Curry: [psi], [Re] and the drag coefficient as
    functions of the Best number, for the constants [do_i], [co_i] and
    [X0_i] of either surface. *)
Definition psi_of (X0i X : R) : R :=
  (1 + X * X0i * (X * X0i)) / (1 + 1.6 * (X * X0i * (X * X0i))).

Definition Re_of (d0 c0 X : R) : R :=
  0.25 * (d0 * d0)
  * (bracket (4 / (d0 * d0 * sqrt c0) * sqrt X)
     * bracket (4 / (d0 * d0 * sqrt c0) * sqrt X)).

Definition Cd_of (d0 c0 X0i X : R) : R :=
  c0 * ((1 + d0 / sqrt (Re_of d0 c0 X)) * (1 + d0 / sqrt (Re_of d0 c0 X)))
  / psi_of X0i X.

Open Scope string_scope.
Open Scope R_scope.

(* ================================================================== *)
(** * Facts on doubles *)
(* ================================================================== *)

Lemma ddiv_fin (a b : R) : b <> 0 -> (Fin a / Fin b)%D = Fin (a / b).
Proof.
  intros Hb. unfold ddiv. destruct (Req_dec_T b 0); [contradiction | reflexivity].
Qed.

Lemma np_sqrt_fin (a : R) : 0 <= a -> np_sqrt (Fin a) = Fin (sqrt a).
Proof.
  intros Ha. unfold np_sqrt. destruct (Rlt_dec a 0); [lra | reflexivity].
Qed.

Lemma Int_part_IZR (z : Z) : Int_part (IZR z) = z.
Proof.
  symmetry. apply Int_part_spec. lra.
Qed.

Lemma pow_fin_pos (a b : R) : 0 < a -> pow_fin a b = Fin (Rpower a b).
Proof.
  intros Ha. unfold pow_fin. destruct (Rlt_dec 0 a); [reflexivity | lra].
Qed.

Lemma Rpower_2 (a : R) : 0 < a -> Rpower a 2 = a * a.
Proof.
  intros Ha. replace 2 with (INR 2) by (simpl; lra).
  rewrite Rpower_pow by assumption. simpl. ring.
Qed.

Lemma Rpower_3 (a : R) : 0 < a -> Rpower a 3 = a * a * a.
Proof.
  intros Ha. replace 3 with (INR 3) by (simpl; lra).
  rewrite Rpower_pow by assumption. simpl. ring.
Qed.

(** [x ** 2] is the square, whatever the sign of [x]. *)
Lemma dpow_2 (a : R) : (Fin a ** Fin 2)%D = Fin (a * a).
Proof.
  simpl. unfold pow_fin.
  destruct (Rlt_dec 0 a) as [Hpos | Hnpos].
  - now rewrite Rpower_2.
  - destruct (Req_dec_T a 0) as [-> | Hnz].
    + destruct (Rlt_dec 0 2); [f_equal; ring | lra].
    + rewrite (Int_part_IZR 2).
      destruct (Req_dec_T 2 2); [| congruence].
      f_equal. simpl. ring.
Qed.

Lemma dpow_3 (a : R) : (Fin a ** Fin 3)%D = Fin (a * a * a).
Proof.
  simpl. unfold pow_fin.
  destruct (Rlt_dec 0 a) as [Hpos | Hnpos].
  - now rewrite Rpower_3.
  - destruct (Req_dec_T a 0) as [-> | Hnz].
    + destruct (Rlt_dec 0 3); [f_equal; ring | lra].
    + rewrite (Int_part_IZR 3).
      destruct (Req_dec_T 3 3); [| congruence].
      f_equal. simpl. ring.
Qed.

Lemma half_not_integer (z : Z) : IZR z <> 0.5.
Proof.
  intros H.
  assert (H2 : IZR (2 * z) = IZR 1) by (rewrite mult_IZR; lra).
  apply eq_IZR in H2. lia.
Qed.

(** [x ** 0.5] and [np.sqrt x] agree on every double. *)
Lemma dpow_half (x : double) : (x ** Fin 0.5)%D = np_sqrt x.
Proof.
  destruct x as [a |]; simpl.
  - unfold pow_fin.
    destruct (Rlt_dec 0 a) as [Hpos | Hnpos].
    + destruct (Rlt_dec a 0); [lra |].
      f_equal. replace 0.5 with (/ 2) by lra. now apply Rpower_sqrt.
    + destruct (Req_dec_T a 0) as [-> | Hnz].
      * destruct (Rlt_dec 0 0.5); [| lra].
        destruct (Rlt_dec 0 0); [lra |]. now rewrite sqrt_0.
      * destruct (Rlt_dec a 0); [| lra].
        destruct (Req_dec_T (IZR (Int_part 0.5)) 0.5) as [E |]; [| reflexivity].
        now apply half_not_integer in E.
  - destruct (Req_dec_T 0.5 0); [lra | reflexivity].
Qed.

(** Two divisions in a row divide by the product. *)
Lemma ddiv_ddiv (x y z : double) : (x / y / z)%D = (x / (y * z))%D.
Proof.
  destruct x as [a |], y as [b |], z as [c |]; simpl; trivial.
  - destruct (Req_dec_T b 0) as [-> | Hb].
    + destruct (Req_dec_T (0 * c) 0); [reflexivity | lra].
    + simpl. destruct (Req_dec_T c 0) as [-> | Hc].
      * destruct (Req_dec_T (b * 0) 0); [reflexivity | lra].
      * destruct (Req_dec_T (b * c) 0) as [E |].
        -- apply Rmult_integral in E. tauto.
        -- f_equal. now field.
  - destruct (Req_dec_T b 0); reflexivity.
Qed.

(** On finite operands the operations are those of the reals. *)
Lemma dpow_pos (a b : R) : 0 < a -> (Fin a ** Fin b)%D = Fin (Rpower a b).
Proof. intros Ha. simpl. now apply pow_fin_pos. Qed.

Lemma dadd_fin (a b : R) : (Fin a + Fin b)%D = Fin (a + b).
Proof. reflexivity. Qed.
Lemma dsub_fin (a b : R) : (Fin a - Fin b)%D = Fin (a - b).
Proof. reflexivity. Qed.
Lemma dmul_fin (a b : R) : (Fin a * Fin b)%D = Fin (a * b).
Proof. reflexivity. Qed.
Lemma dopp_fin (a : R) : (- Fin a)%D = Fin (- a).
Proof. reflexivity. Qed.
Lemma np_exp_fin (a : R) : np_exp (Fin a) = Fin (exp a).
Proof. reflexivity. Qed.
Lemma np_abs_fin (a : R) : np_abs (Fin a) = Fin (Rabs a).
Proof. reflexivity. Qed.
Lemma np_maximum_fin (a b : R) : np_maximum (Fin a) (Fin b) = Fin (Rmax a b).
Proof. reflexivity. Qed.
Lemma np_minimum_fin (a b : R) : np_minimum (Fin a) (Fin b) = Fin (Rmin a b).
Proof. reflexivity. Qed.

(** Positivity of a product, quotient, root or exponential of positive
    numbers. *)
Ltac pos :=
  idtac;
  lazymatch goal with
  | |- _ <> 0 => apply Rgt_not_eq; unfold Rgt; pos
  | |- 0 <= _ => left; pos
  | |- 0 < _ * _ => apply Rmult_lt_0_compat; pos
  | |- 0 < _ / _ => apply Rdiv_lt_0_compat; pos
  | |- 0 < sqrt _ => apply sqrt_lt_R0; pos
  | |- 0 < exp _ => apply exp_pos
  | |- 0 < Rpower _ _ => apply exp_pos
  | |- 0 < PI => apply PI_RGT_0
  | |- 0 < _ + _ => first [lra | apply Rplus_lt_0_compat; pos]
  | |- _ => first [assumption | lra | nra]
  end.

(** Evaluation of an expression on finite doubles: the total operations
    first, then the partial ones where [tac] proves them defined. *)
Ltac dnorm tac :=
  repeat first
    [ progress
        (rewrite ?dadd_fin, ?dsub_fin, ?dmul_fin, ?dopp_fin, ?np_exp_fin,
           ?np_abs_fin, ?np_maximum_fin, ?np_minimum_fin, ?dpow_2, ?dpow_3,
           ?dpow_half)
    | rewrite ddiv_fin by tac
    | rewrite np_sqrt_fin by tac
    | rewrite dpow_pos by tac ].

(** Names the value of the leading [let] of the left-hand side and steps
    under it. *)
Ltac step_let x :=
  lazymatch goal with
  | |- (let y := Fin ?v in @?f y) = ?r => set (x := v)
  end;
  lazymatch goal with
  | |- (let y := ?w in @?f y) = ?r => change (f w = r); cbv beta
  end.

(** Steps under the leading [let] without naming its value. *)
Ltac inline_let :=
  lazymatch goal with
  | |- (let y := ?w in @?f y) = ?r => change (f w = r); cbv beta
  end.

(* ================================================================== *)
(** * Broadcasting *)
(* ================================================================== *)

Section ArrayFacts.

Context {A B C : Type}.
Implicit Types (f : A -> B -> C) (xs : list A) (ys : list B).

Lemma bind_Ok_inv {X Y : Type} (r : result X) (k : X -> result Y) (y : Y) :
  bind r k = Ok y -> exists x, r = Ok x /\ k x = Ok y.
Proof.
  destruct r as [x | e]; simpl; [eauto | discriminate].
Qed.

(** A step that cannot raise [e] leaves the blame with what came before. *)
Lemma bind_Raise_iff {X Y : Type} (r : result X) (k : X -> result Y) (e : error) :
  (forall x, k x <> Raise e) -> bind r k = Raise e <-> r = Raise e.
Proof.
  intros Hk. destruct r as [x | e']; simpl.
  - split; [intros H; now apply Hk in H | discriminate].
  - split; intros H; injection H as ->; reflexivity.
Qed.

Lemma ones_like_length {X : Type} (l : list X) :
  List.length (ones_like l) = List.length l.
Proof. unfold ones_like. apply length_map. Qed.

(** Broadcasting raises nothing but the shape error. *)
Lemma broadcast_Raise f xs ys e :
  broadcast f xs ys = Raise e -> e = DimensionMismatch.
Proof.
  unfold broadcast.
  destruct (Nat.eqb _ _); [discriminate |].
  destruct xs as [| x [| x' xs']]; destruct ys as [| y [| y' ys']];
    simpl; congruence.
Qed.

Lemma np_op_Raise f (x : arg A) ys e :
  np_op f x ys = Raise e -> e = DimensionMismatch.
Proof.
  destruct x; simpl; [discriminate | apply broadcast_Raise].
Qed.

(** It succeeds exactly on the shapes numpy accepts. *)
Lemma broadcast_Ok_iff f xs ys :
  (exists zs, broadcast f xs ys = Ok zs)
  <-> broadcastable (Array xs) (List.length ys) = true.
Proof.
  unfold broadcast, broadcastable.
  destruct (Nat.eqb (List.length xs) (List.length ys)) eqn:E; simpl.
  - split; eauto.
  - destruct xs as [| x [| x' xs']]; destruct ys as [| y [| y' ys']];
      simpl in *; try discriminate; split; intros H;
      try reflexivity; try discriminate; eauto;
      destruct H; discriminate.
Qed.

Lemma np_op_Ok_iff f (x : arg A) ys :
  (exists zs, np_op f x ys = Ok zs)
  <-> broadcastable x (List.length ys) = true.
Proof.
  destruct x as [s | xs]; [| apply broadcast_Ok_iff].
  simpl. split; eauto.
Qed.

Lemma broadcast_not_Missing f xs ys :
  broadcast f xs ys <> Raise MissingConfiguration.
Proof.
  intros H. apply broadcast_Raise in H. discriminate.
Qed.

Lemma np_op_not_Missing f (x : arg A) ys :
  np_op f x ys <> Raise MissingConfiguration.
Proof.
  intros H. apply np_op_Raise in H. discriminate.
Qed.

Lemma zip_with_repeat f (s : A) ys :
  zip_with f (repeat s (List.length ys)) ys = map (f s) ys.
Proof.
  induction ys as [| y ys IH]; simpl; [reflexivity | now rewrite IH].
Qed.

(** A scalar operand is its own broadcast: [s] against an array of length
    [N] gives what the array [s, ..., s] of length [N] gives. *)
Lemma np_op_scalar_repeat f (s : A) ys :
  np_op f (Scalar s) ys = np_op f (Array (repeat s (List.length ys))) ys.
Proof.
  simpl. unfold broadcast.
  rewrite repeat_length, Nat.eqb_refl. now rewrite zip_with_repeat.
Qed.

End ArrayFacts.

(* ================================================================== *)
(** * The scattering interface *)
(* ================================================================== *)

Section ComputeFacts.

Context {consts : Constants} {ext : Externals}.
Import Compute.

Implicit Types (d wl : arg double) (p : string) (ri : option (arg complex))
         (T m : option (arg double)) (theta : double) (n : Z).

(** What a successful [_prepare_input] went through, step by step. *)
Lemma prepare_input_Ok d wl p ri T m theta out :
  _prepare_input d wl p ri T m theta = Ok out ->
  let ds := _convert_to_array d in
  let L := snowLibrary ds p in
  exists wls ris masses Deff,
    np_op dmul wl (ones_like ds) = Ok wls
    /\ match ri with
       | Some r => np_op cmul_real r (ones_like ds) = Ok ris
       | None => exists tk Ts,
           T = Some tk
           /\ np_op dmul tk (ones_like ds) = Ok Ts
           /\ ris = ice_n Ts (map (fun w => (_c / w)%D) wls)
       end
    /\ match m with
       | Some mk => np_op dmul mk (ones_like ds) = Ok masses
       | None => masses = seventh_of L
       end
    /\ broadcast (fun size ar => _compute_effective_size size ar theta)
                 ds (fifth_of L) = Ok Deff
    /\ out = (Deff, map (fun x => (x / _ice_density)%D) masses, wls,
              hexPrismK ris (sixth_of L),
              first_of L, third_of L, second_of L, fourth_of L,
              seventh_of L, eighth_of L, ninth_of L).
Proof.
  intros H. cbv zeta. unfold _prepare_input in H.
  apply bind_Ok_inv in H as (wls & Hwl & H).
  apply bind_Ok_inv in H as (ris & Hri & H).
  destruct (snowLibrary (_convert_to_array d) p)
    as [[[[[[[[kappa beta] gamma] zeta1] alpha_eff] ar_mono] mass_prop] vel] area].
  apply bind_Ok_inv in H as (masses & Hm & H).
  apply bind_Ok_inv in H as (Deff & HD & H).
  injection H as <-.
  exists wls, ris, masses, Deff. simpl.
  repeat split; trivial.
  - destruct ri as [r |]; [assumption |].
    destruct T as [tk |]; [| discriminate].
    apply bind_Ok_inv in Hri as (Ts & HT & Hri).
    injection Hri as <-. eauto.
  - destruct m as [mk |]; [assumption | congruence].
Qed.

(** The only place that raises the configuration error is the test on the
    two optional arguments, which comes after the wavelength broadcast. *)
Lemma prepare_input_MissingConfiguration d wl p ri T m theta :
  _prepare_input d wl p ri T m theta = Raise MissingConfiguration
  <-> ri = None /\ T = None
      /\ broadcastable wl (List.length (_convert_to_array d)) = true.
Proof.
  unfold _prepare_input.
  rewrite <- (ones_like_length (_convert_to_array d)).
  rewrite <- (np_op_Ok_iff dmul wl).
  destruct (np_op dmul wl (ones_like (_convert_to_array d)))
    as [wls | e] eqn:Hwl; simpl.
  - rewrite bind_Raise_iff.
    + destruct ri as [r |]; [| destruct T as [tk |]].
      * split; [intros H; now apply np_op_not_Missing in H |].
        intros (? & _); discriminate.
      * rewrite bind_Raise_iff by discriminate.
        split; [intros H; now apply np_op_not_Missing in H |].
        intros (_ & ? & _); discriminate.
      * split; eauto.
    + intros ris.
      destruct (snowLibrary _ _)
        as [[[[[[[[kappa beta] gamma] zeta1] alpha_eff] ar_mono] mass_prop] vel] area].
      rewrite bind_Raise_iff.
      * destruct m as [mk |]; [apply np_op_not_Missing | discriminate].
      * intros masses. rewrite bind_Raise_iff by discriminate.
        apply broadcast_not_Missing.
  - apply np_op_Raise in Hwl as ->.
    split; [discriminate |].
    intros (_ & _ & zs & ?); discriminate.
Qed.

(** It returns on well-shaped arguments: a wavelength, a refractive index or
    temperature and a mass that broadcast against the diameters, and a
    lookup whose effective aspect ratios do. *)
Lemma prepare_input_returns d wl p ri T m theta :
  let N := List.length (_convert_to_array d) in
  broadcastable wl N = true ->
  match ri, T with
  | Some r, _ => broadcastable r N = true
  | None, Some tk => broadcastable tk N = true
  | None, None => False
  end ->
  match m with
  | Some mk => broadcastable mk N = true
  | None => True
  end ->
  List.length (fifth_of (snowLibrary (_convert_to_array d) p)) = N ->
  exists out, _prepare_input d wl p ri T m theta = Ok out.
Proof.
  cbv zeta. intros Hwl Hri Hm HL.
  unfold _prepare_input.
  rewrite <- (ones_like_length (_convert_to_array d)) in Hwl, Hri, Hm.
  apply (np_op_Ok_iff dmul) in Hwl as (wls & ->). simpl.
  assert (Hris : exists ris,
             match ri with
             | Some r => np_op cmul_real r (ones_like (_convert_to_array d))
             | None =>
                 match T with
                 | Some tk =>
                     Ts <- np_op dmul tk (ones_like (_convert_to_array d)) ;;
                     Ok (ice_n Ts (map (fun w => (_c / w)%D) wls))
                 | None => Raise MissingConfiguration
                 end
             end = Ok ris).
  { destruct ri as [r |]; [now apply (np_op_Ok_iff cmul_real) |].
    destruct T as [tk |]; [| contradiction].
    apply (np_op_Ok_iff dmul) in Hri as (Ts & ->). simpl. eauto. }
  destruct Hris as (ris & ->). simpl.
  destruct (snowLibrary (_convert_to_array d) p)
    as [[[[[[[[kappa beta] gamma] zeta1] alpha_eff] ar_mono] mass_prop] vel] area].
  simpl in HL.
  assert (Hmass : exists masses,
             match m with
             | Some mk => np_op dmul mk (ones_like (_convert_to_array d))
             | None => Ok mass_prop
             end = Ok masses).
  { destruct m as [mk |]; [now apply (np_op_Ok_iff dmul) | eauto]. }
  destruct Hmass as (masses & ->). simpl.
  unfold broadcast. rewrite HL, Nat.eqb_refl. simpl. eauto.
Qed.

(** The three operations do nothing that could raise after
    [_prepare_input]. *)
Lemma calcProperties_unfold d wl p ri T m theta n :
  calcProperties d wl p ri T m theta n
  = (out <- _prepare_input d wl p ri T m theta ;;
     Ok (with_lookup
           (ssrga (out_Deff out) (out_Vol out) (out_wavelength out) (out_K out)
                  (out_kappa out) (out_gamma out) (out_beta out)
                  (out_zeta1 out) n)
           (out_mass_prop out) (out_vel out) (out_area out))).
Proof.
  unfold calcProperties.
  destruct (_prepare_input d wl p ri T m theta) as [out | e]; simpl; trivial.
  destruct out as [[[[[[[[[[Deff Vol] wls] K] kappa] gamma] beta] zeta1] mp] v] a].
  simpl. unfold with_lookup.
  destruct (ssrga Deff Vol wls K kappa gamma beta zeta1 n)
    as [[[[[Cext Cabs] Csca] Cbck] asym] phase].
  reflexivity.
Qed.

Lemma backscatter_unfold d wl p ri T m theta :
  backscatter d wl p ri T m theta
  = (out <- _prepare_input d wl p ri T m theta ;;
     Ok (ssrgaBack (out_Deff out) (out_Vol out) (out_wavelength out) (out_K out)
                   (out_kappa out) (out_gamma out) (out_beta out)
                   (out_zeta1 out))).
Proof.
  unfold backscatter.
  destruct (_prepare_input d wl p ri T m theta) as [out | e]; simpl; trivial.
  now destruct out as [[[[[[[[[[Deff Vol] wls] K] kappa] gamma] beta] zeta1] mp] v] a].
Qed.

Lemma backscatVel_unfold d wl p ri T m theta :
  backscatVel d wl p ri T m theta
  = (out <- _prepare_input d wl p ri T m theta ;;
     Ok (ssrgaBack (out_Deff out) (out_Vol out) (out_wavelength out) (out_K out)
                   (out_kappa out) (out_gamma out) (out_beta out)
                   (out_zeta1 out),
         out_vel out)).
Proof.
  unfold backscatVel.
  destruct (_prepare_input d wl p ri T m theta) as [out | e]; simpl; trivial.
  now destruct out as [[[[[[[[[[Deff Vol] wls] K] kappa] gamma] beta] zeta1] mp] v] a].
Qed.

Lemma bind_Ok_Raise_iff {X Y : Type} (r : result X) (f : X -> Y) (e : error) :
  (x <- r ;; Ok (f x)) = Raise e <-> r = Raise e.
Proof.
  destruct r; simpl; split; congruence.
Qed.

Lemma snowMassVelocityArea_unfold d p :
  let L := snowLibrary (_convert_to_array d) p in
  snowMassVelocityArea d p = (seventh_of L, eighth_of L, ninth_of L).
Proof.
  unfold snowMassVelocityArea. cbv zeta.
  now destruct (snowLibrary (_convert_to_array d) p)
    as [[[[[[[[kappa beta] gamma] zeta1] alpha_eff] ar_mono] mass_prop] vel] area].
Qed.

Lemma same_scattering_of_prepare p theta d1 wl1 ri1 T1 m1 d2 wl2 ri2 T2 m2 :
  _prepare_input d1 wl1 p ri1 T1 m1 theta
  = _prepare_input d2 wl2 p ri2 T2 m2 theta ->
  same_scattering p theta d1 wl1 ri1 T1 m1 d2 wl2 ri2 T2 m2.
Proof.
  intros H. unfold same_scattering.
  repeat split; intros;
    rewrite ?calcProperties_unfold, ?backscatter_unfold, ?backscatVel_unfold;
    now rewrite H.
Qed.

(** C1, as the code has it: the structure parameters that [_prepare_input]
    returns in the order kappa, gamma, beta, zeta1 are the first, third,
    second and fourth arrays of the lookup for the label and the converted
    diameters, and these are what [calcProperties], [backscatter] and
    [backscatVel] hand to the kernel in that order. *)
Theorem structure_parameters_from_lookup d wl p ri T m theta out :
  _prepare_input d wl p ri T m theta = Ok out ->
  let L := snowLibrary (_convert_to_array d) p in
  (out_kappa out = first_of L /\ out_gamma out = third_of L
   /\ out_beta out = second_of L /\ out_zeta1 out = fourth_of L)
  /\ (forall n,
         calcProperties d wl p ri T m theta n
         = Ok (with_lookup
                 (ssrga (out_Deff out) (out_Vol out) (out_wavelength out)
                        (out_K out) (first_of L) (third_of L) (second_of L)
                        (fourth_of L) n)
                 (out_mass_prop out) (out_vel out) (out_area out)))
  /\ backscatter d wl p ri T m theta
     = Ok (ssrgaBack (out_Deff out) (out_Vol out) (out_wavelength out)
                     (out_K out) (first_of L) (third_of L) (second_of L)
                     (fourth_of L))
  /\ backscatVel d wl p ri T m theta
     = Ok (ssrgaBack (out_Deff out) (out_Vol out) (out_wavelength out)
                     (out_K out) (first_of L) (third_of L) (second_of L)
                     (fourth_of L),
           out_vel out).
Proof.
  intros H. cbv zeta.
  assert (Hp : out_kappa out = first_of (snowLibrary (_convert_to_array d) p)
               /\ out_gamma out = third_of (snowLibrary (_convert_to_array d) p)
               /\ out_beta out = second_of (snowLibrary (_convert_to_array d) p)
               /\ out_zeta1 out = fourth_of (snowLibrary (_convert_to_array d) p)).
  { apply prepare_input_Ok in H as (wls & ris & masses & Deff & _ & _ & _ & _ & ->).
    simpl. auto. }
  split; [exact Hp |].
  destruct Hp as (Hk & Hg & Hb & Hz).
  rewrite <- Hk, <- Hg, <- Hb, <- Hz.
  repeat split; intros;
    rewrite ?calcProperties_unfold, ?backscatter_unfold, ?backscatVel_unfold, H;
    reflexivity.
Qed.

(** C2: for the same arguments, the backscattering cross section in what
    [calcProperties] returns is what [backscatter] returns, and the two fail
    together, when the kernel's full solve and backscatter-only solve agree
    on that cross section. *)
Theorem backscatter_agrees_with_calcProperties :
  kernel_consistent ext ->
  forall d wl p ri T m theta n,
    (r <- calcProperties d wl p ri T m theta n ;; Ok (Cbck_of r))
    = backscatter d wl p ri T m theta.
Proof.
  intros Hk d wl p ri T m theta n.
  rewrite calcProperties_unfold, backscatter_unfold.
  destruct (_prepare_input d wl p ri T m theta) as [out | e]; simpl; trivial.
  f_equal. rewrite <- Hk with (Nangles := n).
  unfold with_lookup, Cbck_of.
  now destruct (ssrga _ _ _ _ _ _ _ _ n) as [[[[[Cext Cabs] Csca] Cbck] asym] phase].
Qed.

(** C3, as the code has it: each of the three operations raises the
    configuration error exactly when refractive index and temperature are
    both absent and the wavelength broadcasts against the diameters (the
    wavelength is broadcast first, and a shape error there comes first). *)
Theorem missing_configuration_iff d wl p ri T m theta :
  let absent :=
    ri = None /\ T = None
    /\ broadcastable wl (List.length (_convert_to_array d)) = true in
  (forall n, calcProperties d wl p ri T m theta n = Raise MissingConfiguration
             <-> absent)
  /\ (backscatter d wl p ri T m theta = Raise MissingConfiguration <-> absent)
  /\ (backscatVel d wl p ri T m theta = Raise MissingConfiguration <-> absent).
Proof.
  cbv zeta.
  split; [intros n | split].
  - rewrite calcProperties_unfold, bind_Ok_Raise_iff.
    apply prepare_input_MissingConfiguration.
  - rewrite backscatter_unfold, bind_Ok_Raise_iff.
    apply prepare_input_MissingConfiguration.
  - rewrite backscatVel_unfold, bind_Ok_Raise_iff.
    apply prepare_input_MissingConfiguration.
Qed.

(** C4: the velocity that [backscatVel] returns is the velocity that
    [snowMassVelocityArea] returns for the same diameters and label. *)
Theorem backscatVel_velocity d wl p ri T m theta Cbck vel :
  backscatVel d wl p ri T m theta = Ok (Cbck, vel) ->
  vel = velocity_of (snowMassVelocityArea d p).
Proof.
  rewrite backscatVel_unfold, snowMassVelocityArea_unfold.
  intros H. apply bind_Ok_inv in H as (out & Hout & H).
  apply prepare_input_Ok in Hout as (wls & ris & masses & Deff & _ & _ & _ & _ & ->).
  simpl in *. congruence.
Qed.

(** The mass argument reaches the volume and nothing else. *)
Lemma prepare_input_mass_only_Vol d wl p ri T m1 m2 theta out1 out2 :
  _prepare_input d wl p ri T m1 theta = Ok out1 ->
  _prepare_input d wl p ri T m2 theta = Ok out2 ->
  out_Deff out1 = out_Deff out2
  /\ out_wavelength out1 = out_wavelength out2
  /\ out_K out1 = out_K out2
  /\ out_kappa out1 = out_kappa out2 /\ out_gamma out1 = out_gamma out2
  /\ out_beta out1 = out_beta out2 /\ out_zeta1 out1 = out_zeta1 out2
  /\ out_mass_prop out1 = out_mass_prop out2
  /\ out_vel out1 = out_vel out2 /\ out_area out1 = out_area out2.
Proof.
  intros H1 H2.
  apply prepare_input_Ok in H1
    as (wls1 & ris1 & masses1 & Deff1 & Hw1 & Hr1 & _ & HD1 & ->).
  apply prepare_input_Ok in H2
    as (wls2 & ris2 & masses2 & Deff2 & Hw2 & Hr2 & _ & HD2 & ->).
  assert (wls1 = wls2) as -> by congruence.
  assert (Deff1 = Deff2) as -> by congruence.
  assert (ris1 = ris2) as ->.
  { destruct ri as [r |]; [congruence |].
    destruct Hr1 as (t1 & Ts1 & E1 & HT1 & ->).
    destruct Hr2 as (t2 & Ts2 & E2 & HT2 & ->).
    congruence. }
  simpl. repeat split; reflexivity.
Qed.

(** C5: with an explicit mass, the mass that [calcProperties] returns is
    still the seventh array of the lookup; the supplied mass, broadcast and
    divided by the ice density, is the volume handed to the kernel, and no
    other output of [_prepare_input] depends on the mass argument. *)
Theorem explicit_mass_only_sets_volume d wl p ri T (mass : arg double) theta n r :
  calcProperties d wl p ri T (Some mass) theta n = Ok r ->
  let ds := _convert_to_array d in
  let L := snowLibrary ds p in
  mass_of r = seventh_of L
  /\ exists masses out,
      np_op dmul mass (ones_like ds) = Ok masses
      /\ _prepare_input d wl p ri T (Some mass) theta = Ok out
      /\ out_Vol out = map (fun x => (x / _ice_density)%D) masses
      /\ r = with_lookup
               (ssrga (out_Deff out) (out_Vol out) (out_wavelength out)
                      (out_K out) (out_kappa out) (out_gamma out)
                      (out_beta out) (out_zeta1 out) n)
               (seventh_of L) (eighth_of L) (ninth_of L)
      /\ forall m' out',
          _prepare_input d wl p ri T m' theta = Ok out' ->
          out_Deff out' = out_Deff out
          /\ out_wavelength out' = out_wavelength out
          /\ out_K out' = out_K out
          /\ out_kappa out' = out_kappa out /\ out_gamma out' = out_gamma out
          /\ out_beta out' = out_beta out /\ out_zeta1 out' = out_zeta1 out
          /\ out_mass_prop out' = out_mass_prop out
          /\ out_vel out' = out_vel out /\ out_area out' = out_area out.
Proof.
  rewrite calcProperties_unfold. intros H. cbv zeta.
  apply bind_Ok_inv in H as (out & Hout & H).
  injection H as <-.
  pose proof (prepare_input_Ok _ _ _ _ _ _ _ _ Hout)
    as (wls & ris & masses & Deff & _ & _ & Hm & _ & E).
  split.
  - rewrite E. simpl. unfold with_lookup, mass_of.
    now destruct (ssrga _ _ _ _ _ _ _ _ n) as [[[[[Cext Cabs] Csca] Cbck] asym] phase].
  - exists masses, out.
    split; [exact Hm |]. split; [exact Hout |].
    split; [now rewrite E |]. split; [now rewrite E |].
    intros m' out' H'.
    apply (prepare_input_mass_only_Vol _ _ _ _ _ _ _ _ _ _ H' Hout).
Qed.

(** C10: in each operation a scalar diameter gives what the one-element
    array gives, and a scalar wavelength, refractive index, temperature or
    mass gives what the array repeating it once per diameter gives. *)
Theorem scalar_coercion :
  (forall (x : double) wl p ri T m theta,
      same_scattering p theta (Scalar x) wl ri T m (Array [x]) wl ri T m
      /\ snowMassVelocityArea (Scalar x) p = snowMassVelocityArea (Array [x]) p)
  /\ (forall d wl p ri T m theta,
         let N := List.length (_convert_to_array d) in
         (forall s : double,
             same_scattering p theta d (Scalar s) ri T m
                             d (Array (repeat s N)) ri T m)
         /\ (forall z : complex,
                same_scattering p theta d wl (Some (Scalar z)) T m
                                d wl (Some (Array (repeat z N))) T m)
         /\ (forall s : double,
                same_scattering p theta d wl ri (Some (Scalar s)) m
                                d wl ri (Some (Array (repeat s N))) m)
         /\ (forall s : double,
                same_scattering p theta d wl ri T (Some (Scalar s))
                                d wl ri T (Some (Array (repeat s N))))).
Proof.
  split.
  - intros x wl p ri T m theta. split; [| reflexivity].
    now apply same_scattering_of_prepare.
  - intros d wl p ri T m theta. cbv zeta.
    rewrite <- (ones_like_length (_convert_to_array d)).
    repeat split; intros; apply same_scattering_of_prepare;
      unfold _prepare_input; now rewrite <- np_op_scalar_repeat.
Qed.

End ComputeFacts.

(** ** The claims on the sample imports *)

Lemma structure_parameters_witness :
  exists out,
    Compute._prepare_input (consts := Sample.constants) (ext := Sample.externals)
      Sample.diameters Sample.wavelength Sample.label (Some Sample.ref_index)
      None None Compute.theta_default = Ok out
    /\ out_gamma out
       = third_of (Sample.library (Compute._convert_to_array Sample.diameters)
                                  Sample.label)
    /\ out_beta out
       = second_of (Sample.library (Compute._convert_to_array Sample.diameters)
                                   Sample.label).
Proof.
  eexists. split; [reflexivity |].
  refine (let H := structure_parameters_from_lookup
                     (consts := Sample.constants) (ext := Sample.externals)
                     Sample.diameters Sample.wavelength Sample.label
                     (Some Sample.ref_index) None None Compute.theta_default
                     _ eq_refl in _).
  destruct H as ((_ & Hg & Hb & _) & _). split; [exact Hg | exact Hb].
Defined.

(** C1 as stated fails on the code: the second and third parameters that
    [_prepare_input] returns are not the second and third arrays of the
    lookup. *)
Lemma structure_parameters_not_positional :
  exists out,
    Compute._prepare_input (consts := Sample.constants) (ext := Sample.externals)
      Sample.diameters Sample.wavelength Sample.label (Some Sample.ref_index)
      None None Compute.theta_default = Ok out
    /\ ~ (let L := Sample.library (Compute._convert_to_array Sample.diameters)
                                  Sample.label in
          out_kappa out = first_of L /\ out_gamma out = second_of L
          /\ out_beta out = third_of L /\ out_zeta1 out = fourth_of L).
Proof.
  eexists. split; [reflexivity |].
  intros (_ & H & _). simpl in H.
  injection H as H _. lra.
Qed.

Lemma backscatter_agrees_witness :
  kernel_consistent Sample.externals
  /\ (r <- Compute.calcProperties (consts := Sample.constants)
             (ext := Sample.externals)
             Sample.diameters Sample.wavelength Sample.label
             (Some Sample.ref_index) None None Compute.theta_default
             Compute.Nangles_default ;;
      Ok (Cbck_of r))
     = Compute.backscatter (consts := Sample.constants)
         (ext := Sample.externals)
         Sample.diameters Sample.wavelength Sample.label
         (Some Sample.ref_index) None None Compute.theta_default.
Proof.
  assert (H : kernel_consistent Sample.externals)
    by (intros Deff Vol wavelength K kappa gamma beta zeta1 Nangles; reflexivity).
  split; [exact H |].
  apply (backscatter_agrees_with_calcProperties
           (consts := Sample.constants) (ext := Sample.externals) H).
Defined.

(** C3 as stated fails on the code: with both arguments absent and a
    wavelength that does not broadcast against the diameters, the call
    raises the shape error, not the configuration error. *)
Lemma missing_configuration_counterexample :
  ~ (Compute.calcProperties (consts := Sample.constants)
       (ext := Sample.externals)
       (Array [Fin 0.001; Fin 0.002])
       (Array [Fin 0.003; Fin 0.004; Fin 0.005]) Sample.label
       None None None Compute.theta_default Compute.Nangles_default
     = Raise MissingConfiguration
     <-> @None (arg complex) = None /\ @None (arg double) = None).
Proof.
  intros [_ H]. specialize (H (conj eq_refl eq_refl)).
  discriminate H.
Qed.

Lemma backscatVel_velocity_witness :
  exists Cbck vel,
    Compute.backscatVel (consts := Sample.constants) (ext := Sample.externals)
      Sample.diameters Sample.wavelength Sample.label (Some Sample.ref_index)
      None None Compute.theta_default = Ok (Cbck, vel)
    /\ vel = velocity_of
               (Compute.snowMassVelocityArea (ext := Sample.externals)
                  Sample.diameters Sample.label).
Proof.
  eexists. eexists. split; [reflexivity |].
  apply (backscatVel_velocity
           (consts := Sample.constants) (ext := Sample.externals)
           Sample.diameters Sample.wavelength Sample.label
           (Some Sample.ref_index) None None Compute.theta_default _ _ eq_refl).
Defined.

Lemma explicit_mass_witness :
  exists r,
    Compute.calcProperties (consts := Sample.constants)
      (ext := Sample.externals)
      Sample.diameters Sample.wavelength Sample.label (Some Sample.ref_index)
      None (Some Sample.mass) Compute.theta_default Compute.Nangles_default
    = Ok r
    /\ mass_of r
       = seventh_of (Sample.library (Compute._convert_to_array Sample.diameters)
                                    Sample.label).
Proof.
  eexists. split; [reflexivity |].
  apply (explicit_mass_only_sets_volume
           (consts := Sample.constants) (ext := Sample.externals)
           Sample.diameters Sample.wavelength Sample.label
           (Some Sample.ref_index) None Sample.mass Compute.theta_default
           Compute.Nangles_default _ eq_refl).
Defined.

(* ================================================================== *)
(** * The fall-speed models: correction, symmetry, Boehm 1989 *)
(* ================================================================== *)

Section Correction.

Context {consts : Constants}.

Lemma map_id_on {X : Type} (f : X -> X) (l : list X) :
  (forall x, f x = x) -> map f l = l.
Proof.
  intros H. induction l as [| x l IH]; simpl; [reflexivity |].
  now rewrite H, IH.
Qed.

(** C6: with the actual air density equal to the default reference density
    [_rho0] and the actual temperature equal to the default reference
    temperature 293.15, [correctionFooteduToit] returns the velocity array
    unchanged. *)
Theorem correction_identity_at_reference (vel : list double) :
  FallSpeed.correctionFooteduToit vel _rho0 FallSpeed.T0_default
                                  _rho0 FallSpeed.T0_default
  = vel.
Proof.
  unfold FallSpeed.correctionFooteduToit, _rho0, FallSpeed.T0_default.
  set (r := 1.2038631624242195).
  assert (Hr : r <> 0) by (unfold r; lra).
  rewrite (ddiv_fin r r Hr).
  replace (r / r) with 1 by (now field).
  assert (Hlog : np_log10 (Fin 1) = Fin 0).
  { unfold np_log10. destruct (Rlt_dec 0 1); [| lra].
    f_equal. rewrite ln_1. unfold Rdiv. ring. }
  rewrite Hlog.
  assert (Hpow : (Fin 0 ** Fin 2.5)%D = Fin 0).
  { simpl. unfold pow_fin.
    destruct (Rlt_dec 0 0); [lra |].
    destruct (Req_dec_T 0 0); [| congruence].
    destruct (Rlt_dec 0 2.5); [reflexivity | lra]. }
  rewrite Hpow. simpl.
  rewrite pow_fin_pos by lra.
  replace (0.43 * 0 - 0.4 * 0) with 0 by ring.
  rewrite Rpower_O by lra.
  apply map_id_on. intros [v |]; simpl; [| reflexivity].
  f_equal. ring.
Qed.



End Correction.

(* ================================================================== *)
(** * Real analysis behind the terminal velocities *)
(* ================================================================== *)

Lemma bracket_pos (u : R) : 0 < u -> 0 < bracket u.
Proof.
  intros Hu. unfold bracket.
  assert (sqrt 1 < sqrt (1 + u)) by (apply sqrt_lt_1; lra).
  rewrite sqrt_1 in *. lra.
Qed.

Lemma bracket_lt (u v : R) : 0 <= u -> u < v -> bracket u < bracket v.
Proof.
  intros Hu Huv. unfold bracket.
  assert (sqrt (1 + u) < sqrt (1 + v)) by (apply sqrt_lt_1; lra).
  lra.
Qed.

Lemma bracket_sqr (u : R) :
  0 <= u -> bracket u * (bracket u + 2) = u.
Proof.
  intros Hu. unfold bracket.
  assert (H := sqrt_sqrt (1 + u)). nra.
Qed.

Lemma sqr_bracket_pos (u : R) : 0 < u -> 0 < bracket u * bracket u.
Proof.
  intros Hu. assert (H := bracket_pos u Hu). nra.
Qed.

Lemma sqr_bracket_lt (u v : R) :
  0 <= u -> u < v -> bracket u * bracket u < bracket v * bracket v.
Proof.
  intros Hu Huv.
  assert (H := bracket_lt u v Hu Huv).
  assert (0 <= bracket u).
  { destruct Hu as [Hu | <-]; [left; now apply bracket_pos |].
    unfold bracket. rewrite Rplus_0_r, sqrt_1. lra. }
  nra.
Qed.

(** The Reynolds number of Boehm's 1992 model is [sqrt (X / C')] times
    [G gamma beta]; [G gamma] does not decrease on the positive numbers,
    whatever [gamma] is. *)
Section G_monotone.

Variable gamma : R.

Lemma G_derivative (b : R) : 0 < b -> derivable_pt_lim (G gamma) b (dG gamma b).
Proof.
  intros Hb.
  pose (f1 := (id / (id + fct_cte 2))%F).
  pose (e := comp exp (- id * fct_cte gamma)%F).
  pose (f3 := (fct_cte 2 * id * e)%F).
  pose (f4 := ((fct_cte 2 + id) * (fct_cte 1 + id))%F).
  pose (f2 := (fct_cte 1 + f3 / f4)%F).
  assert (D1 : derivable_pt_lim f1 b (2 / ((b + 2) * (b + 2)))).
  { unfold f1.
    replace (2 / ((b + 2) * (b + 2)))
      with ((1 * (id + fct_cte 2)%F b - (1 + 0) * id b) / Rsqr ((id + fct_cte 2)%F b)).
    - apply derivable_pt_lim_div.
      + apply derivable_pt_lim_id.
      + apply derivable_pt_lim_plus;
          [apply derivable_pt_lim_id | apply derivable_pt_lim_const].
      + unfold plus_fct, id, fct_cte. lra.
    - unfold plus_fct, id, fct_cte, Rsqr. field. lra. }
  assert (De : derivable_pt_lim e b (exp (- b * gamma) * (- gamma))).
  { unfold e.
    replace (exp (- b * gamma) * - gamma)
      with (exp ((- id * fct_cte gamma)%F b) * (-1 * fct_cte gamma b + (- id)%F b * 0)).
    - apply derivable_pt_lim_comp.
      + apply derivable_pt_lim_mult.
        * apply derivable_pt_lim_opp. apply derivable_pt_lim_id.
        * apply derivable_pt_lim_const.
      + apply derivable_pt_lim_exp.
    - unfold mult_fct, opp_fct, id, fct_cte. ring. }
  assert (D3 : derivable_pt_lim f3 b
                 (2 * exp (- b * gamma) + 2 * b * (exp (- b * gamma) * (- gamma)))).
  { unfold f3.
    replace (2 * exp (- b * gamma) + 2 * b * (exp (- b * gamma) * - gamma))
      with ((0 * id b + fct_cte 2 b * 1) * e b
            + (fct_cte 2 * id)%F b * (exp (- b * gamma) * - gamma)).
    - apply derivable_pt_lim_mult; [| exact De].
      apply derivable_pt_lim_mult;
        [apply derivable_pt_lim_const | apply derivable_pt_lim_id].
    - unfold e, comp, mult_fct, opp_fct, id, fct_cte. ring. }
  assert (D4 : derivable_pt_lim f4 b (3 + 2 * b)).
  { unfold f4.
    replace (3 + 2 * b)
      with ((0 + 1) * (fct_cte 1 + id)%F b + (fct_cte 2 + id)%F b * (0 + 1)).
    - apply derivable_pt_lim_mult; apply derivable_pt_lim_plus;
        try apply derivable_pt_lim_const; apply derivable_pt_lim_id.
    - unfold plus_fct, id, fct_cte. ring. }
  assert (D2 : derivable_pt_lim f2 b
                 (((2 * exp (- b * gamma) + 2 * b * (exp (- b * gamma) * (- gamma)))
                   * f4 b - (3 + 2 * b) * f3 b) / Rsqr (f4 b))).
  { unfold f2.
    replace (((2 * exp (- b * gamma) + 2 * b * (exp (- b * gamma) * (- gamma)))
                   * f4 b - (3 + 2 * b) * f3 b) / Rsqr (f4 b))
      with (0 + ((2 * exp (- b * gamma) + 2 * b * (exp (- b * gamma) * (- gamma)))
                   * f4 b - (3 + 2 * b) * f3 b) / Rsqr (f4 b)) by ring.
    apply derivable_pt_lim_plus; [apply derivable_pt_lim_const |].
    apply derivable_pt_lim_div; [exact D3 | exact D4 |].
    unfold f4, mult_fct, plus_fct, id, fct_cte. nra. }
  assert (DG : derivable_pt_lim (f1 * f2)%F b
                 (2 / ((b + 2) * (b + 2)) * f2 b
                  + f1 b * (((2 * exp (- b * gamma)
                              + 2 * b * (exp (- b * gamma) * (- gamma)))
                             * f4 b - (3 + 2 * b) * f3 b) / Rsqr (f4 b))))
    by (apply derivable_pt_lim_mult; assumption).
  apply derivable_pt_lim_ext with (f := (f1 * f2)%F).
  - intros z. unfold G, f1, f2, f3, f4, e, comp, mult_fct, div_fct, plus_fct,
      opp_fct, id, fct_cte. reflexivity.
  - replace (dG gamma b) with
      (2 / ((b + 2) * (b + 2)) * f2 b
       + f1 b * (((2 * exp (- b * gamma)
                   + 2 * b * (exp (- b * gamma) * (- gamma)))
                  * f4 b - (3 + 2 * b) * f3 b) / Rsqr (f4 b))); [exact DG |].
    unfold dG, f1, f2, f3, f4, e, comp, mult_fct, div_fct, plus_fct,
      opp_fct, id, fct_cte, Rsqr.
    field. lra.
Qed.

Lemma G_pos (b : R) : 0 < b -> 0 < G gamma b.
Proof.
  intros Hb. unfold G.
  assert (He := exp_pos (- b * gamma)).
  apply Rmult_lt_0_compat.
  - apply Rdiv_lt_0_compat; lra.
  - assert (0 < (2 * b * exp (- b * gamma)) / ((2 + b) * (1 + b))); [| lra].
    apply Rdiv_lt_0_compat; nra.
Qed.

Lemma dG_nonneg (b : R) : 0 < b -> 0 <= dG gamma b.
Proof.
  intros Hb. unfold dG.
  set (E := exp (- b * gamma)).
  set (rho := b / (1 + b)).
  set (a := (4 + 2 * b - b * b) / ((b + 2) * (1 + b))).
  assert (HE : 0 < E) by apply exp_pos.
  assert (Hrho : 0 < rho < 1).
  { unfold rho. split.
    - apply Rdiv_lt_0_compat; lra.
    - apply Rmult_lt_reg_r with (1 + b); [lra |].
      unfold Rdiv. rewrite Rmult_assoc, Rinv_l by lra. lra. }
  assert (Ha : -1 < a).
  { unfold a. apply Rmult_lt_reg_r with ((b + 2) * (1 + b)); [nra |].
    unfold Rdiv. rewrite Rmult_assoc, Rinv_l by nra. nra. }
  assert (Hfac : 0 < 2 / ((b + 2) * (b + 2))) by (apply Rdiv_lt_0_compat; nra).
  apply Rmult_le_pos; [lra |].
  destruct (Rle_dec (gamma * b) a) as [Hle | Hgt].
  - assert (0 <= E * rho * (a - gamma * b)); [| lra].
    apply Rmult_le_pos; [nra | lra].
  - assert (Hx : a < gamma * b) by lra.
    assert (HEx : E * (1 + gamma * b) <= 1).
    { assert (H1 := exp_ineq1_le (gamma * b)).
      assert (H2 : E * exp (gamma * b) = 1).
      { unfold E. rewrite <- exp_plus.
        replace (- b * gamma + gamma * b) with 0 by ring. apply exp_0. }
      nra. }
    assert (Hb1 : rho * (gamma * b - a) <= 1 + gamma * b) by nra.
    assert (E * (rho * (gamma * b - a)) <= E * (1 + gamma * b))
      by (apply Rmult_le_compat_l; lra).
    lra.
Qed.

Lemma G_nondecreasing (b1 b2 : R) :
  0 < b1 -> b1 < b2 -> G gamma b1 <= G gamma b2.
Proof.
  intros Hb1 Hlt.
  destruct (MVT_cor2 (G gamma) (dG gamma) b1 b2 Hlt) as (c & Hc & Hin).
  - intros c Hc. apply G_derivative. lra.
  - assert (0 <= dG gamma c) by (apply dG_nonneg; lra).
    nra.
Qed.

End G_monotone.

Lemma cubic_ratio_increasing (t1 t2 : R) :
  0 < t1 -> t1 < t2 ->
  t1 * (1 + t1 * t1) / (1 + 1.6 * (t1 * t1))
  < t2 * (1 + t2 * t2) / (1 + 1.6 * (t2 * t2)).
Proof.
  intros Ht1 Ht.
  apply Rmult_lt_reg_r with ((1 + 1.6 * (t1 * t1)) * (1 + 1.6 * (t2 * t2))); [nra |].
  replace (t1 * (1 + t1 * t1) / (1 + 1.6 * (t1 * t1))
           * ((1 + 1.6 * (t1 * t1)) * (1 + 1.6 * (t2 * t2))))
    with (t1 * (1 + t1 * t1) * (1 + 1.6 * (t2 * t2))) by (field; nra).
  replace (t2 * (1 + t2 * t2) / (1 + 1.6 * (t2 * t2))
           * ((1 + 1.6 * (t1 * t1)) * (1 + 1.6 * (t2 * t2))))
    with (t2 * (1 + t2 * t2) * (1 + 1.6 * (t1 * t1))) by (field; nra).
  assert (Hd : t2 * (1 + t2 * t2) * (1 + 1.6 * (t1 * t1))
               - t1 * (1 + t1 * t1) * (1 + 1.6 * (t2 * t2))
               = (t2 - t1) * (1 + (t2 - t1) * (t2 - t1) + 1.4 * (t1 * t2)
                              + 1.6 * (t1 * t1 * (t2 * t2)))) by nra.
  assert (0 < (t2 - t1) * (1 + (t2 - t1) * (t2 - t1) + 1.4 * (t1 * t2)
                              + 1.6 * (t1 * t1 * (t2 * t2)))); [| lra].
  apply Rmult_lt_0_compat; [lra |]. nra.
Qed.

(** The drag coefficient of Boehm's model and the Reynolds number. *)
Section Boehm1992_Reynolds.

Variables C X0 gamma : R.
Hypothesis C_pos : 0 < C.
Hypothesis X0_pos : 0 < X0.

Lemma Cp_pos (X : R) : 0 < Cp C X0 X.
Proof.
  unfold Cp.
  assert (0 <= X / X0 * (X / X0)) by nra.
  apply Rdiv_lt_0_compat; nra.
Qed.

Lemma Cp_nondecreasing (X1 X2 : R) : 0 <= X1 -> X1 <= X2 -> Cp C X0 X1 <= Cp C X0 X2.
Proof.
  intros H1 H12. unfold Cp.
  set (t1 := X1 / X0). set (t2 := X2 / X0).
  assert (Ht1 : 0 <= t1) by (apply Rmult_le_pos; [lra | left; now apply Rinv_0_lt_compat]).
  assert (Ht : t1 <= t2)
    by (apply Rmult_le_compat_r; [left; now apply Rinv_0_lt_compat | lra]).
  apply Rmult_le_reg_r with ((1 + t1 * t1) * (1 + t2 * t2)); [nra |].
  replace (C * (1 + 1.6 * (t1 * t1)) / (1 + t1 * t1) * ((1 + t1 * t1) * (1 + t2 * t2)))
    with (C * ((1 + 1.6 * (t1 * t1)) * (1 + t2 * t2))) by (field; nra).
  replace (C * (1 + 1.6 * (t2 * t2)) / (1 + t2 * t2) * ((1 + t1 * t1) * (1 + t2 * t2)))
    with (C * ((1 + 1.6 * (t2 * t2)) * (1 + t1 * t1))) by (field; nra).
  apply Rmult_le_compat_l; [lra |]. nra.
Qed.

Lemma X_over_Cp_increasing (X1 X2 : R) :
  0 < X1 -> X1 < X2 -> X1 / Cp C X0 X1 < X2 / Cp C X0 X2.
Proof.
  intros H1 H12. unfold Cp.
  assert (Hi : 0 < / X0) by now apply Rinv_0_lt_compat.
  assert (HX1 : X1 = X0 * (X1 / X0)) by (field; lra).
  assert (HX2 : X2 = X0 * (X2 / X0)) by (field; lra).
  set (t1 := X1 / X0) in *. set (t2 := X2 / X0) in *.
  assert (Ht1 : 0 < t1) by (unfold t1; apply Rmult_lt_0_compat; lra).
  assert (Ht : t1 < t2) by (unfold t1, t2; apply Rmult_lt_compat_r; lra).
  rewrite HX1 at 1. rewrite HX2 at 1.
  replace (X0 * t1 / (C * (1 + 1.6 * (t1 * t1)) / (1 + t1 * t1)))
    with (X0 / C * (t1 * (1 + t1 * t1) / (1 + 1.6 * (t1 * t1)))) by (field; nra).
  replace (X0 * t2 / (C * (1 + 1.6 * (t2 * t2)) / (1 + t2 * t2)))
    with (X0 / C * (t2 * (1 + t2 * t2) / (1 + 1.6 * (t2 * t2)))) by (field; nra).
  apply Rmult_lt_compat_l; [apply Rdiv_lt_0_compat; lra |].
  now apply cubic_ratio_increasing.
Qed.

Let s (X : R) : R := sqrt (X / Cp C X0 X).
Let u (X : R) : R := Cp C X0 X / 6 / 1 * s X.

Lemma s_pos (X : R) : 0 < X -> 0 < s X.
Proof.
  intros HX. apply sqrt_lt_R0.
  apply Rdiv_lt_0_compat; [assumption | now apply Cp_pos].
Qed.

Lemma s_increasing (X1 X2 : R) : 0 < X1 -> X1 < X2 -> s X1 < s X2.
Proof.
  intros H1 H12. apply sqrt_lt_1_alt. split.
  - left. apply Rdiv_lt_0_compat; [assumption | now apply Cp_pos].
  - now apply X_over_Cp_increasing.
Qed.

Lemma u_pos (X : R) : 0 < X -> 0 < u X.
Proof.
  intros HX. unfold u.
  assert (H1 := Cp_pos X). assert (H2 := s_pos X HX).
  apply Rmult_lt_0_compat; [lra | assumption].
Qed.

Lemma u_increasing (X1 X2 : R) : 0 < X1 -> X1 < X2 -> u X1 < u X2.
Proof.
  intros H1 H12. unfold u.
  assert (Hc1 := Cp_pos X1).
  assert (Hc : Cp C X0 X1 <= Cp C X0 X2) by (apply Cp_nondecreasing; lra).
  assert (Hs1 := s_pos X1 H1).
  assert (Hs := s_increasing X1 X2 H1 H12).
  nra.
Qed.

Lemma beta_of_pos (X : R) : 0 < X -> 0 < beta_of C X0 X.
Proof.
  intros HX. apply (bracket_pos (u X)). now apply u_pos.
Qed.

Lemma beta_of_increasing (X1 X2 : R) :
  0 < X1 -> X1 < X2 -> beta_of C X0 X1 < beta_of C X0 X2.
Proof.
  intros H1 H12. apply (bracket_lt (u X1) (u X2)).
  - left. now apply u_pos.
  - now apply u_increasing.
Qed.

(** The Reynolds number is [sqrt (X / C')] times a function of [beta]
    alone. *)
Lemma N_Re_of_factor (X : R) :
  0 < X -> N_Re_of C X0 gamma X = s X * G gamma (beta_of C X0 X).
Proof.
  intros HX. unfold N_Re_of, N_Re0_of, G.
  assert (Hb := beta_of_pos X HX).
  assert (Hs := s_pos X HX).
  assert (Hc := Cp_pos X).
  assert (Hu : beta_of C X0 X * (beta_of C X0 X + 2) = u X).
  { apply (bracket_sqr (u X)). left. now apply u_pos. }
  set (b := beta_of C X0 X) in *.
  assert (HCp : Cp C X0 X = 6 * (b * (b + 2)) / s X).
  { rewrite Hu. unfold u. field. lra. }
  rewrite HCp. field. repeat split; lra.
Qed.

Lemma N_Re_of_pos (X : R) : 0 < X -> 0 < N_Re_of C X0 gamma X.
Proof.
  intros HX. rewrite N_Re_of_factor by assumption.
  apply Rmult_lt_0_compat; [now apply s_pos |].
  apply G_pos. now apply beta_of_pos.
Qed.

Lemma N_Re_of_increasing (X1 X2 : R) :
  0 < X1 -> X1 < X2 -> N_Re_of C X0 gamma X1 < N_Re_of C X0 gamma X2.
Proof.
  intros H1 H12. rewrite !N_Re_of_factor by lra.
  assert (Hs1 := s_pos X1 H1).
  assert (Hs := s_increasing X1 X2 H1 H12).
  assert (Hb1 := beta_of_pos X1 H1).
  assert (Hb := beta_of_increasing X1 X2 H1 H12).
  assert (HG1 := G_pos gamma (beta_of C X0 X1) Hb1).
  assert (HG := G_nondecreasing gamma (beta_of C X0 X1) (beta_of C X0 X2) Hb1 Hb).
  nra.
Qed.

End Boehm1992_Reynolds.

Section KC05_drag.

Variables d0 c0 X0i : R.
Hypothesis d0_pos : 0 < d0.
Hypothesis c0_pos : 0 < c0.
Hypothesis X0i_pos : 0 < X0i.

Lemma psi_of_pos (X : R) : 0 < psi_of X0i X.
Proof.
  unfold psi_of.
  assert (0 <= X * X0i * (X * X0i)) by nra.
  apply Rdiv_lt_0_compat; lra.
Qed.

Lemma X_psi_increasing (X1 X2 : R) :
  0 < X1 -> X1 < X2 -> X1 * psi_of X0i X1 < X2 * psi_of X0i X2.
Proof.
  intros H1 H12. unfold psi_of.
  assert (Hc := cubic_ratio_increasing (X1 * X0i) (X2 * X0i)).
  assert (Ht1 : 0 < X1 * X0i) by nra.
  assert (Ht : X1 * X0i < X2 * X0i) by nra.
  specialize (Hc Ht1 Ht).
  set (t1 := X1 * X0i) in *. set (t2 := X2 * X0i) in *.
  replace (X1 * ((1 + t1 * t1) / (1 + 1.6 * (t1 * t1))))
    with (/ X0i * (t1 * (1 + t1 * t1) / (1 + 1.6 * (t1 * t1))))
    by (unfold t1; field; split; nra).
  replace (X2 * ((1 + t2 * t2) / (1 + 1.6 * (t2 * t2))))
    with (/ X0i * (t2 * (1 + t2 * t2) / (1 + 1.6 * (t2 * t2))))
    by (unfold t2; field; split; nra).
  apply Rmult_lt_compat_l; [now apply Rinv_0_lt_compat | assumption].
Qed.

Lemma Re_of_pos (X : R) : 0 < X -> 0 < Re_of d0 c0 X.
Proof.
  intros HX. unfold Re_of.
  assert (Hs : 0 < sqrt c0) by now apply sqrt_lt_R0.
  assert (HsX : 0 < sqrt X) by now apply sqrt_lt_R0.
  assert (Hu : 0 < 4 / (d0 * d0 * sqrt c0) * sqrt X).
  { apply Rmult_lt_0_compat; [| assumption].
    apply Rdiv_lt_0_compat; [lra |]. apply Rmult_lt_0_compat; nra. }
  assert (Hb := bracket_pos _ Hu).
  apply Rmult_lt_0_compat; nra.
Qed.

Lemma Re_of_increasing (X1 X2 : R) :
  0 < X1 -> X1 < X2 -> Re_of d0 c0 X1 < Re_of d0 c0 X2.
Proof.
  intros H1 H12. unfold Re_of.
  assert (Hs : 0 < sqrt c0) by now apply sqrt_lt_R0.
  assert (HsX : 0 < sqrt X1) by now apply sqrt_lt_R0.
  assert (HsX12 : sqrt X1 < sqrt X2) by (apply sqrt_lt_1_alt; lra).
  assert (Hk : 0 < 4 / (d0 * d0 * sqrt c0)).
  { apply Rdiv_lt_0_compat; [lra |]. apply Rmult_lt_0_compat; nra. }
  assert (Hu1 : 0 < 4 / (d0 * d0 * sqrt c0) * sqrt X1) by nra.
  assert (Hu : 4 / (d0 * d0 * sqrt c0) * sqrt X1
               < 4 / (d0 * d0 * sqrt c0) * sqrt X2) by nra.
  assert (Hb1 := bracket_pos _ Hu1).
  assert (Hb := bracket_lt _ _ (Rlt_le _ _ Hu1) Hu).
  apply Rmult_lt_compat_l; nra.
Qed.

Lemma Cd_of_pos (X : R) : 0 < X -> 0 < Cd_of d0 c0 X0i X.
Proof.
  intros HX. unfold Cd_of.
  assert (Hp := psi_of_pos X).
  assert (HR : 0 < sqrt (Re_of d0 c0 X)) by (apply sqrt_lt_R0; now apply Re_of_pos).
  assert (Hw : 0 < d0 / sqrt (Re_of d0 c0 X)) by now apply Rdiv_lt_0_compat.
  apply Rdiv_lt_0_compat; [| assumption].
  apply Rmult_lt_0_compat; [assumption | nra].
Qed.

(** The Best number over the drag coefficient grows with the Best
    number. *)
Lemma X_over_Cd_increasing (X1 X2 : R) :
  0 < X1 -> X1 < X2 -> X1 / Cd_of d0 c0 X0i X1 < X2 / Cd_of d0 c0 X0i X2.
Proof.
  intros H1 H12. unfold Cd_of.
  assert (Hp1 := psi_of_pos X1). assert (Hp2 := psi_of_pos X2).
  assert (Hpsi := X_psi_increasing X1 X2 H1 H12).
  assert (HR1 : 0 < sqrt (Re_of d0 c0 X1)) by (apply sqrt_lt_R0; now apply Re_of_pos).
  assert (HR : sqrt (Re_of d0 c0 X1) < sqrt (Re_of d0 c0 X2)).
  { apply sqrt_lt_1_alt. split; [left; now apply Re_of_pos |].
    now apply Re_of_increasing. }
  set (r1 := sqrt (Re_of d0 c0 X1)) in *. set (r2 := sqrt (Re_of d0 c0 X2)) in *.
  assert (Hw2 : 0 < d0 / r2) by (apply Rdiv_lt_0_compat; lra).
  assert (Hw : d0 / r2 < d0 / r1).
  { unfold Rdiv. apply Rmult_lt_compat_l; [assumption |].
    apply Rinv_lt_contravar; nra. }
  set (w1 := d0 / r1) in *. set (w2 := d0 / r2) in *.
  replace (X1 / (c0 * ((1 + w1) * (1 + w1)) / psi_of X0i X1))
    with (X1 * psi_of X0i X1 / (c0 * ((1 + w1) * (1 + w1)))) by (field; nra).
  replace (X2 / (c0 * ((1 + w2) * (1 + w2)) / psi_of X0i X2))
    with (X2 * psi_of X0i X2 / (c0 * ((1 + w2) * (1 + w2)))) by (field; nra).
  assert (Hn1 : 0 < X1 * psi_of X0i X1) by nra.
  assert (Hd2 : 0 < c0 * ((1 + w2) * (1 + w2))) by nra.
  assert (Hd : c0 * ((1 + w2) * (1 + w2)) < c0 * ((1 + w1) * (1 + w1)))
    by (apply Rmult_lt_compat_l; nra).
  apply Rlt_trans with (X1 * psi_of X0i X1 / (c0 * ((1 + w2) * (1 + w2)))).
  - unfold Rdiv. apply Rmult_lt_compat_l; [assumption |].
    apply Rinv_lt_contravar; nra.
  - unfold Rdiv. apply Rmult_lt_compat_r; [now apply Rinv_0_lt_compat | assumption].
Qed.

End KC05_drag.


(* ================================================================== *)
(** * The four terminal velocities on positive arguments *)
(* ================================================================== *)

Section TerminalVelocity.
Context {consts : Constants}.
Import FallSpeed.

Variables d a rho nu gr : R.
Hypothesis d_pos : 0 < d.
Hypothesis a_pos : 0 < a.
Hypothesis rho_pos : 0 < rho.
Hypothesis nu_pos : 0 < nu.
Hypothesis g_val : _g = Fin gr.
Hypothesis g_pos : 0 < gr.

Local Abbreviation q := (a / (PI / 4 * (d * d))).

Lemma Boehm1989_fin (m : R) :
  0 < m ->
  Boehm1989 (Fin d) (Fin m) (Fin a) (Fin rho) (Fin nu)
  = Fin (8.5
         * (bracket (0.1519 * sqrt (8 * m * gr * rho
                                    / (PI * (nu * rho * (nu * rho))
                                       * Rpower q 0.25)))
            * bracket (0.1519 * sqrt (8 * m * gr * rho
                                      / (PI * (nu * rho * (nu * rho))
                                         * Rpower q 0.25))))
         * (nu * rho) / d / rho).
Proof.
  intros Hm.
  assert (Hpi := PI_RGT_0).
  assert (Hdd : 0 < d * d) by nra.
  cbv beta delta [Boehm1989 g]. rewrite g_val.
  dnorm ltac:(pos).
  step_let q'.
  assert (Hq : 0 < q') by (unfold q'; pos).
  step_let eta.
  assert (Heta : 0 < eta) by (unfold eta; pos).
  dnorm ltac:(pos).
  step_let X.
  assert (HX : 0 < X) by (unfold X; pos).
  dnorm ltac:(pos).
  step_let Re. dnorm ltac:(pos).
  cbv zeta. reflexivity.
Qed.

Lemma HeymsfieldWestbrook2010_fin (m : R) :
  0 < m ->
  HeymsfieldWestbrook2010 (Fin d) (Fin m) (Fin a) (Fin rho) (Fin nu) (Fin 0.5)
  = Fin (nu * rho
         * (0.25 * (8 * 8)
            * (bracket (4 * sqrt (8 * rho * m * gr
                                  / (PI * Rpower q (1 - 0.5)
                                     * (nu * rho * (nu * rho))))
                        / (8 * 8 * sqrt 0.35))
               * bracket (4 * sqrt (8 * rho * m * gr
                                    / (PI * Rpower q (1 - 0.5)
                                       * (nu * rho * (nu * rho))))
                          / (8 * 8 * sqrt 0.35))))
         / (rho * d)).
Proof.
  intros Hm.
  assert (Hpi := PI_RGT_0).
  assert (Hdd : 0 < d * d) by nra.
  cbv beta delta [HeymsfieldWestbrook2010 g]. rewrite g_val.
  step_let delta_0. step_let C_0.
  assert (Hd0 : 0 < delta_0) by (unfold delta_0; lra).
  assert (HC0 : 0 < C_0) by (unfold C_0; lra).
  dnorm ltac:(pos).
  step_let q'.
  assert (Hq : 0 < q') by (unfold q'; pos).
  step_let eta.
  assert (Heta : 0 < eta) by (unfold eta; pos).
  dnorm ltac:(pos).
  step_let X.
  assert (HX : 0 < X) by (unfold X; pos).
  dnorm ltac:(pos).
  step_let Re. dnorm ltac:(pos).
  cbv zeta. reflexivity.
Qed.

Lemma X2Cd_kc05rough_fin (X : R) :
  0 < X ->
  X2Cd_kc05rough (Fin X) = Fin (Cd_of 5.83 0.6 0.35714285714285714285e-6 X).
Proof.
  intros HX.
  cbv beta delta [X2Cd_kc05rough].
  step_let do_i. step_let co_i. step_let Ct. step_let X0_i.
  assert (Hdo : 0 < do_i) by (unfold do_i; lra).
  assert (Hco : 0 < co_i) by (unfold co_i; lra).
  assert (HCt : 0 < Ct) by (unfold Ct; lra).
  assert (HX0 : 0 < X0_i) by (unfold X0_i; lra).
  dnorm ltac:(pos).
  step_let k1. assert (Hk1 : 0 < k1) by (unfold k1; pos).
  step_let k2. assert (Hk2 : 0 < k2) by (unfold k2; pos).
  dnorm ltac:(pos).
  step_let b.
  assert (Hb : 0 < b) by (apply (bracket_pos (k1 * sqrt X)); pos).
  assert (Hsq : 0 <= X * X0_i * (X * X0_i)) by nra.
  dnorm ltac:(pos).
  step_let psi.
  assert (Hpsi : 0 < psi) by (unfold psi; pos).
  step_let Re. assert (HRe : 0 < Re) by (unfold Re; pos).
  dnorm ltac:(pos).
  reflexivity.
Qed.

Lemma X2Cd_kc05smooth_fin (X : R) :
  0 < X ->
  X2Cd_kc05smooth (Fin X) = Fin (Cd_of 9.06 0.292 (1 / 6.7e6) X).
Proof.
  intros HX.
  cbv beta delta [X2Cd_kc05smooth].
  step_let do_i. step_let co_i. step_let Ct.
  assert (Hdo : 0 < do_i) by (unfold do_i; lra).
  assert (Hco : 0 < co_i) by (unfold co_i; lra).
  assert (HCt : 0 < Ct) by (unfold Ct; lra).
  dnorm ltac:(pos).
  step_let X0_i.
  assert (HX0 : 0 < X0_i) by (unfold X0_i; lra).
  dnorm ltac:(pos).
  step_let k1. assert (Hk1 : 0 < k1) by (unfold k1; pos).
  step_let k2. assert (Hk2 : 0 < k2) by (unfold k2; pos).
  dnorm ltac:(pos).
  step_let b.
  assert (Hb : 0 < b) by (apply (bracket_pos (k1 * sqrt X)); pos).
  assert (Hsq : 0 <= X * X0_i * (X * X0_i)) by nra.
  dnorm ltac:(pos).
  step_let psi.
  assert (Hpsi : 0 < psi) by (unfold psi; pos).
  step_let Re. assert (HRe : 0 < Re) by (unfold Re; pos).
  dnorm ltac:(pos).
  reflexivity.
Qed.


Lemma KhvorostyanovCurry2005_fin (ri m : R) (smooth : bool) :
  _ice_density = Fin ri -> rho < ri -> 0 < m ->
  let F := m * gr - rho * (m / ri) * gr in
  let X := 2 * F * rho * (d * d) / (a * (nu * rho * (nu * rho))) in
  0 < F /\ 0 < X
  /\ KhvorostyanovCurry2005 (Fin d) (Fin m) (Fin a) (Fin rho) (Fin nu) smooth
     = Fin (sqrt (2 * F
                  / (rho * a
                     * (if smooth then Cd_of 9.06 0.292 (1 / 6.7e6) X
                        else Cd_of 5.83 0.6 0.35714285714285714285e-6 X)))).
Proof.
  intros Hice Hri Hm F X.
  assert (Hdd : 0 < d * d) by nra.
  assert (HF : 0 < F).
  { unfold F.
    replace (m * gr - rho * (m / ri) * gr) with (m * gr * ((ri - rho) / ri))
      by (field; lra).
    pos. }
  assert (HX : 0 < X) by (unfold X; pos).
  split; [exact HF |]. split; [exact HX |].
  cbv beta delta [KhvorostyanovCurry2005 g rho_ice]. rewrite g_val, Hice.
  dnorm ltac:(pos).
  step_let Vb. dnorm ltac:(pos). step_let Fb. step_let eta.
  assert (Heta : 0 < eta) by (unfold eta; pos).
  dnorm ltac:(pos).
  change (m * gr - Fb) with F. rewrite (Rabs_right F) by lra.
  dnorm ltac:(pos).
  change (2 * F * rho * (d * d) / (a * (eta * eta))) with X.
  step_let Xbest.
  assert (HCd : 0 < (if smooth then Cd_of 9.06 0.292 (1 / 6.7e6) Xbest
                     else Cd_of 5.83 0.6 0.35714285714285714285e-6 Xbest)).
  { destruct smooth; apply Cd_of_pos; solve [lra | exact HX]. }
  destruct smooth.
  - rewrite X2Cd_kc05smooth_fin by exact HX.
    step_let Cd. dnorm ltac:(pos). reflexivity.
  - rewrite X2Cd_kc05rough_fin by exact HX.
    step_let Cd. dnorm ltac:(pos). reflexivity.
Qed.

(** At the default aspect ratio 1 the coefficients of Boehm's model are
    constants: [gama_big] is 1 and the first [C_DP] is 0.292. *)
Lemma gama_big_at_1 :
  Rmax (1 * 1)
       (Rmin (1 * 1.98) (3.76 - 8.41 * 1 + 9.18 * (1 * 1) - 3.53 * (1 * 1 * 1)))
  = 1.
Proof.
  unfold Rmax, Rmin. repeat destruct (Rle_dec _ _); lra.
Qed.

Lemma C_DP_at_1 : Rmax (0.292 * 1 * 1) (0.492 - 0.2 / sqrt 1) = 0.292.
Proof.
  rewrite sqrt_1. unfold Rmax. destruct (Rle_dec _ _); lra.
Qed.

Lemma Boehm1992_fin (m : R) :
  0 < m ->
  let gama_big :=
    Rmax (1 * 1)
         (Rmin (1 * 1.98)
               (3.76 - 8.41 * 1 + 9.18 * (1 * 1) - 3.53 * (1 * 1 * 1))) in
  let C_DP := Rmax (0.292 * 1 * gama_big) (0.492 - 0.2 / sqrt 1) in
  let C := Rmax 1 (q * (1.46 * q - 0.46)) * C_DP in
  let C_DO := 4.5 * (1 * 1) * Rmax 1 (1 * 1) in
  let gama_small := (C_DO - C) / 4 / C in
  let X := 8 * m * gr * rho
           / (PI * (nu * rho * (nu * rho)) * Rmax 1 (1 * 1)
              * Rmax (Rpower q 0.25) q) in
  0 < C /\ 0 < X
  /\ Boehm1992 (Fin d) (Fin m) (Fin a) (Fin rho) (Fin nu) (Fin 1)
     = Fin (N_Re_of C 2.8e6 gama_small X * (nu * rho) / d / rho).
Proof.
  intros Hm gama_big C_DP C C_DO gama_small X.
  assert (Hpi := PI_RGT_0).
  assert (Hdd : 0 < d * d) by nra.
  assert (Hq : 0 < q) by pos.
  assert (HC : 0 < C).
  { unfold C, C_DP, gama_big. rewrite gama_big_at_1, C_DP_at_1.
    apply Rmult_lt_0_compat; [| lra].
    apply Rlt_le_trans with 1; [lra | apply Rmax_l]. }
  assert (H1 : 0 < Rmax 1 (1 * 1)).
  { apply Rlt_le_trans with 1; [lra | apply Rmax_l]. }
  assert (HQ : 0 < Rmax (Rpower q 0.25) q).
  { apply Rlt_le_trans with q; [assumption | apply Rmax_r]. }
  assert (HX : 0 < X) by (unfold X; pos).
  split; [exact HC |]. split; [exact HX |].
  cbv beta delta [Boehm1992 g np_ones_like]. rewrite g_val.
  dnorm ltac:(pos).
  step_let q'. step_let eta. inline_let. step_let X_0.
  assert (Heta : 0 < eta) by (unfold eta; pos).
  assert (HX0 : 0 < X_0) by (unfold X_0; lra).
  dnorm ltac:(pos).
  change (8 * m * gr * rho
          / (PI * (eta * eta) * Rmax 1 (1 * 1) * Rmax (Rpower q' 0.25) q'))
    with X.
  step_let X'. inline_let.
  dnorm ltac:(pos).
  change (Rmax (1 * 1)
         (Rmin (1 * 1.98)
               (3.76 - 8.41 * 1 + 9.18 * (1 * 1) - 3.53 * (1 * 1 * 1))))
    with gama_big.
  step_let gama_big'.
  dnorm ltac:(pos).
  change (Rmax (0.292 * 1 * gama_big') (0.492 - 0.2 / sqrt 1)) with C_DP.
  step_let C_DP'. dnorm ltac:(pos).
  change (Rmax 1 (q' * (1.46 * q' - 0.46)) * C_DP') with C.
  step_let C'.
  assert (HCp := Cp_pos C' X_0 HC X').
  dnorm ltac:(pos).
  change (C' * (1 + 1.6 * (X' / X_0 * (X' / X_0))) / (1 + X' / X_0 * (X' / X_0)))
    with (Cp C' X_0 X').
  step_let C_DP_prim.
  assert (Hs : 0 < sqrt (X' / C_DP_prim)) by pos.
  dnorm ltac:(pos).
  step_let beta.
  assert (Hbeta : 0 < beta)
    by (apply (bracket_pos (C_DP_prim / 6 / 1 * sqrt (X' / C_DP_prim))); pos).
  dnorm ltac:(pos).
  step_let N_Re0. dnorm ltac:(pos).
  step_let C_DO'. dnorm ltac:(pos).
  step_let gama_small'. dnorm ltac:(pos).
  step_let N_Re. dnorm ltac:(pos).
  cbv zeta. reflexivity.
Qed.

(** A Best number proportional to the mass grows with the mass. *)
Lemma linear_over_increasing (c D m1 m2 : R) :
  0 < c -> 0 < D -> m1 < m2 -> c * m1 / D < c * m2 / D.
Proof.
  intros Hc HD Hm. unfold Rdiv.
  apply Rmult_lt_compat_r; [now apply Rinv_0_lt_compat | nra].
Qed.

Lemma div_lt_compat (x y c : R) : 0 < c -> x < y -> x / c < y / c.
Proof.
  intros Hc Hxy. unfold Rdiv.
  apply Rmult_lt_compat_r; [now apply Rinv_0_lt_compat | assumption].
Qed.

Lemma Boehm1989_positive (m : R) :
  0 < m -> Fin 0 <d Boehm1989 (Fin d) (Fin m) (Fin a) (Fin rho) (Fin nu).
Proof.
  intros Hm. rewrite Boehm1989_fin by assumption. simpl.
  assert (Hdd : 0 < d * d) by nra.
  assert (Hb : 0 < bracket (0.1519 * sqrt (8 * m * gr * rho
                              / (PI * (nu * rho * (nu * rho)) * Rpower q 0.25))))
    by (apply bracket_pos; pos).
  pos.
Qed.

Lemma Boehm1989_increasing (m1 m2 : R) :
  0 < m1 -> m1 < m2 ->
  Boehm1989 (Fin d) (Fin m1) (Fin a) (Fin rho) (Fin nu)
  <d Boehm1989 (Fin d) (Fin m2) (Fin a) (Fin rho) (Fin nu).
Proof.
  intros H1 H12.
  rewrite !Boehm1989_fin by (assumption || lra). simpl.
  assert (Hdd : 0 < d * d) by nra.
  set (D := PI * (nu * rho * (nu * rho)) * Rpower q 0.25).
  assert (HD : 0 < D) by (unfold D; pos).
  assert (HX1 : 0 < 8 * m1 * gr * rho / D) by pos.
  assert (HX : 8 * m1 * gr * rho / D < 8 * m2 * gr * rho / D).
  { replace (8 * m1 * gr * rho) with (8 * gr * rho * m1) by ring.
    replace (8 * m2 * gr * rho) with (8 * gr * rho * m2) by ring.
    apply linear_over_increasing; [pos | assumption | assumption]. }
  assert (Hs1 : 0 < sqrt (8 * m1 * gr * rho / D)) by pos.
  assert (Hs : sqrt (8 * m1 * gr * rho / D) < sqrt (8 * m2 * gr * rho / D))
    by (apply sqrt_lt_1_alt; lra).
  assert (Hb := sqr_bracket_lt (0.1519 * sqrt (8 * m1 * gr * rho / D))
                               (0.1519 * sqrt (8 * m2 * gr * rho / D))).
  assert (Hb' : bracket (0.1519 * sqrt (8 * m1 * gr * rho / D))
                * bracket (0.1519 * sqrt (8 * m1 * gr * rho / D))
                < bracket (0.1519 * sqrt (8 * m2 * gr * rho / D))
                  * bracket (0.1519 * sqrt (8 * m2 * gr * rho / D)))
    by (apply Hb; lra).
  repeat (apply div_lt_compat; [assumption |]).
  apply Rmult_lt_compat_r; [pos |].
  apply Rmult_lt_compat_l; [lra | assumption].
Qed.


Lemma HeymsfieldWestbrook2010_positive (m : R) :
  0 < m ->
  Fin 0 <d HeymsfieldWestbrook2010 (Fin d) (Fin m) (Fin a) (Fin rho) (Fin nu)
                                   (Fin 0.5).
Proof.
  intros Hm. rewrite HeymsfieldWestbrook2010_fin by assumption.
  simpl.
  assert (Hdd : 0 < d * d) by nra.
  assert (Hb : 0 < bracket (4 * sqrt (8 * rho * m * gr
                                      / (PI * Rpower q (1 - 0.5)
                                         * (nu * rho * (nu * rho))))
                            / (8 * 8 * sqrt 0.35)))
    by (apply bracket_pos; pos).
  pos.
Qed.

Lemma HeymsfieldWestbrook2010_increasing (m1 m2 : R) :
  0 < m1 -> m1 < m2 ->
  HeymsfieldWestbrook2010 (Fin d) (Fin m1) (Fin a) (Fin rho) (Fin nu) (Fin 0.5)
  <d HeymsfieldWestbrook2010 (Fin d) (Fin m2) (Fin a) (Fin rho) (Fin nu)
                             (Fin 0.5).
Proof.
  intros H1 H12.
  rewrite !HeymsfieldWestbrook2010_fin by (assumption || lra).
  simpl.
  assert (Hdd : 0 < d * d) by nra.
  set (D := PI * Rpower q (1 - 0.5) * (nu * rho * (nu * rho))).
  assert (HD : 0 < D) by (unfold D; pos).
  assert (HX1 : 0 < 8 * rho * m1 * gr / D) by pos.
  assert (HX : 8 * rho * m1 * gr / D < 8 * rho * m2 * gr / D).
  { replace (8 * rho * m1 * gr) with (8 * gr * rho * m1) by ring.
    replace (8 * rho * m2 * gr) with (8 * gr * rho * m2) by ring.
    apply linear_over_increasing; [pos | assumption | assumption]. }
  assert (Hs1 : 0 < sqrt (8 * rho * m1 * gr / D)) by pos.
  assert (Hs : sqrt (8 * rho * m1 * gr / D) < sqrt (8 * rho * m2 * gr / D))
    by (apply sqrt_lt_1_alt; lra).
  assert (Hk : 0 < 8 * 8 * sqrt 0.35) by pos.
  assert (Hb : bracket (4 * sqrt (8 * rho * m1 * gr / D) / (8 * 8 * sqrt 0.35))
               * bracket (4 * sqrt (8 * rho * m1 * gr / D) / (8 * 8 * sqrt 0.35))
               < bracket (4 * sqrt (8 * rho * m2 * gr / D) / (8 * 8 * sqrt 0.35))
                 * bracket (4 * sqrt (8 * rho * m2 * gr / D) / (8 * 8 * sqrt 0.35))).
  { apply sqr_bracket_lt; [pos |].
    apply div_lt_compat; [assumption | lra]. }
  apply div_lt_compat; [pos |].
  apply Rmult_lt_compat_l; [pos |].
  apply Rmult_lt_compat_l; [lra | assumption].
Qed.

Section KC.

Variable ri : R.
Variable smooth : bool.
Hypothesis ice_val : _ice_density = Fin ri.
Hypothesis ice_denser : rho < ri.

Local Abbreviation Cd X := (if smooth then Cd_of 9.06 0.292 (1 / 6.7e6) X
                  else Cd_of 5.83 0.6 0.35714285714285714285e-6 X).

Lemma Cd_pos (X : R) : 0 < X -> 0 < Cd X.
Proof.
  intros HX. destruct smooth; apply Cd_of_pos; solve [lra | assumption].
Qed.

Lemma X_over_Cd_lt (X1 X2 : R) : 0 < X1 -> X1 < X2 -> X1 / Cd X1 < X2 / Cd X2.
Proof.
  intros H1 H12.
  destruct smooth; apply X_over_Cd_increasing; solve [lra | assumption].
Qed.

Lemma KhvorostyanovCurry2005_positive (m : R) :
  0 < m ->
  Fin 0 <d KhvorostyanovCurry2005 (Fin d) (Fin m) (Fin a) (Fin rho) (Fin nu)
                                  smooth.
Proof.
  intros Hm.
  destruct (KhvorostyanovCurry2005_fin ri m smooth ice_val ice_denser Hm) as (HF & HX & ->).
  simpl. assert (HC := Cd_pos _ HX). pos.
Qed.

Lemma KhvorostyanovCurry2005_increasing (m1 m2 : R) :
  0 < m1 -> m1 < m2 ->
  KhvorostyanovCurry2005 (Fin d) (Fin m1) (Fin a) (Fin rho) (Fin nu) smooth
  <d KhvorostyanovCurry2005 (Fin d) (Fin m2) (Fin a) (Fin rho) (Fin nu) smooth.
Proof.
  intros H1 H12.
  assert (H2 : 0 < m2) by lra.
  destruct (KhvorostyanovCurry2005_fin ri m1 smooth ice_val ice_denser H1) as (HF1 & HX1 & ->).
  destruct (KhvorostyanovCurry2005_fin ri m2 smooth ice_val ice_denser H2) as (HF2 & HX2 & ->).
  simpl.
  set (F1 := m1 * gr - rho * (m1 / ri) * gr) in *.
  set (F2 := m2 * gr - rho * (m2 / ri) * gr) in *.
  assert (Hdd : 0 < d * d) by nra.
  assert (HF : F1 < F2).
  { unfold F1, F2.
    replace (m1 * gr - rho * (m1 / ri) * gr) with (gr * ((ri - rho) / ri) * m1)
      by (field; lra).
    replace (m2 * gr - rho * (m2 / ri) * gr) with (gr * ((ri - rho) / ri) * m2)
      by (field; lra).
    apply Rmult_lt_compat_l; [pos | assumption]. }
  set (E := a * (nu * rho * (nu * rho))) in *.
  assert (HE : 0 < E) by (unfold E; pos).
  set (X1 := 2 * F1 * rho * (d * d) / E) in *.
  set (X2 := 2 * F2 * rho * (d * d) / E) in *.
  assert (HX : X1 < X2).
  { unfold X1, X2. apply div_lt_compat; [assumption |].
    repeat (apply Rmult_lt_compat_r; [assumption |]). lra. }
  assert (HC1 := Cd_pos _ HX1). assert (HC2 := Cd_pos _ HX2).
  assert (Hr := X_over_Cd_lt X1 X2 HX1 HX).
  assert (Hk : 0 < E / (rho * (d * d) * (rho * a))) by pos.
  assert (Hgen : forall F c : R,
             0 < c ->
             2 * F / (rho * a * c)
             = E / (rho * (d * d) * (rho * a)) * (2 * F * rho * (d * d) / E / c))
    by (intros F c Hc; field; repeat split; lra).
  rewrite (Hgen F1 _ HC1), (Hgen F2 _ HC2).
  change (2 * F1 * rho * (d * d) / E) with X1.
  change (2 * F2 * rho * (d * d) / E) with X2.
  apply sqrt_lt_1_alt. split.
  - left. apply Rmult_lt_0_compat; [assumption | pos].
  - apply Rmult_lt_compat_l; assumption.
Qed.

End KC.

Lemma Boehm1992_positive (m : R) :
  0 < m ->
  Fin 0 <d Boehm1992 (Fin d) (Fin m) (Fin a) (Fin rho) (Fin nu) (Fin 1).
Proof.
  intros Hm.
  destruct (Boehm1992_fin m Hm) as (HC & HX & ->).
  simpl.
  match goal with
  | |- 0 < N_Re_of ?C ?X0 ?g ?X * _ / _ / _ =>
      assert (HN : 0 < N_Re_of C X0 g X) by (apply N_Re_of_pos; solve [lra | assumption])
  end.
  pos.
Qed.

Lemma Boehm1992_increasing (m1 m2 : R) :
  0 < m1 -> m1 < m2 ->
  Boehm1992 (Fin d) (Fin m1) (Fin a) (Fin rho) (Fin nu) (Fin 1)
  <d Boehm1992 (Fin d) (Fin m2) (Fin a) (Fin rho) (Fin nu) (Fin 1).
Proof.
  intros H1 H12.
  assert (H2 : 0 < m2) by lra.
  destruct (Boehm1992_fin m1 H1) as (HC & HX1 & ->).
  destruct (Boehm1992_fin m2 H2) as (_ & HX2 & ->).
  simpl.
  repeat (apply div_lt_compat; [assumption |]).
  apply Rmult_lt_compat_r; [pos |].
  apply N_Re_of_increasing; [assumption | lra | assumption |].
  assert (Hdd : 0 < d * d) by nra.
  match goal with
  | |- _ / ?D < _ / _ =>
      assert (HD : 0 < D);
      [ apply Rmult_lt_0_compat;
        [ apply Rmult_lt_0_compat; [pos |];
          apply Rlt_le_trans with 1; [lra | apply Rmax_l]
        | apply Rlt_le_trans with q; [pos | apply Rmax_r] ]
      | apply div_lt_compat; [exact HD |];
        repeat (apply Rmult_lt_compat_r; [assumption |]); lra ]
  end.
Qed.

End TerminalVelocity.



(* ================================================================== *)
(** * More on the scattering interface *)
(* ================================================================== *)

Lemma zip_with_length {A B C : Type} (f : A -> B -> C)
      (xs : list A) (ys : list B) :
  List.length xs = List.length ys ->
  List.length (zip_with f xs ys) = List.length ys.
Proof.
  revert ys. induction xs as [| x xs IH]; intros [| y ys] H; simpl in *;
    try discriminate; [reflexivity |].
  f_equal. apply IH. now injection H.
Qed.

Section ShapeFacts.

Context {A B C : Type}.
Implicit Types (f g : A -> B -> C) (xs : list A) (ys : list B).

(** The length of a broadcast: that of the right operand when the left one
    has one element, that of the left operand otherwise. *)
Lemma broadcast_length f xs ys zs :
  broadcast f xs ys = Ok zs ->
  (List.length xs = 1%nat /\ List.length zs = List.length ys)
  \/ (List.length zs = List.length xs
      /\ (List.length ys = List.length xs \/ List.length ys = 1%nat)).
Proof.
  unfold broadcast.
  destruct (Nat.eqb (List.length xs) (List.length ys)) eqn:E.
  - intros H. injection H as <-. right.
    apply Nat.eqb_eq in E.
    rewrite zip_with_length by assumption. auto.
  - destruct xs as [| x [| x' xs']]; destruct ys as [| y [| y' ys']];
      simpl in *; try discriminate; intros H; injection H as <-;
      simpl; rewrite ?length_map; auto.
Qed.

Lemma np_op_length f (x : arg A) ys zs :
  np_op f x ys = Ok zs ->
  List.length ys <> 1%nat -> List.length zs = List.length ys.
Proof.
  destruct x as [s | xs]; simpl.
  - intros H _. injection H as <-. apply length_map.
  - intros H Hn. apply broadcast_length in H as [[_ H] | [H [H' | H']]];
      [assumption | congruence | contradiction].
Qed.

(** Whether a broadcast raises depends on the shapes only. *)
Lemma broadcast_shape {C' : Type} f (g : A -> B -> C') xs ys :
  match broadcast f xs ys, broadcast g xs ys with
  | Ok zs, Ok zs' => List.length zs = List.length zs'
  | Raise e, Raise e' => e = e'
  | _, _ => False
  end.
Proof.
  unfold broadcast.
  destruct (Nat.eqb (List.length xs) (List.length ys)) eqn:E.
  - apply Nat.eqb_eq in E. now rewrite !zip_with_length by assumption.
  - destruct xs as [| x [| x' xs']]; destruct ys as [| y [| y' ys']];
      simpl; rewrite ?length_map; reflexivity.
Qed.

End ShapeFacts.

(** Multiplying by [np.ones_like] changes no entry. *)
Lemma dmul_one (x : double) : (x * Fin 1)%D = x.
Proof.
  destruct x as [a |]; simpl; [| reflexivity]. f_equal. ring.
Qed.

Lemma zip_with_dmul_ones {X : Type} (xs : list double) (ds : list X) :
  List.length xs = List.length ds ->
  zip_with dmul xs (ones_like ds) = xs.
Proof.
  revert ds. induction xs as [| x xs IH]; intros [| d ds] H; simpl in *;
    try discriminate; [reflexivity |].
  rewrite dmul_one. f_equal. apply IH. now injection H.
Qed.

Lemma broadcast_dmul_ones {X : Type} (xs : list double) (ds : list X) :
  List.length xs = List.length ds ->
  broadcast dmul xs (ones_like ds) = Ok xs.
Proof.
  intros H. unfold broadcast.
  rewrite ones_like_length, H, Nat.eqb_refl.
  now rewrite zip_with_dmul_ones.
Qed.

Section ComputeMore.

Context {consts : Constants} {ext : Externals}.
Import Compute.

Implicit Types (d wl : arg double) (p : string) (ri : option (arg complex))
         (T m : option (arg double)) (theta : double) (n : Z).

(** X1: [_prepare_input] returns exactly on the shapes numpy accepts: a
    wavelength that broadcasts against the diameters, a refractive index
    that does or, without one, a temperature that does, a mass that does
    when one is given, and diameters that broadcast against the effective
    aspect ratios of the lookup.  The imported functions are taken as
    returning. *)
Theorem prepare_input_returns_iff d wl p ri T m theta :
  let ds := _convert_to_array d in
  let N := List.length ds in
  (exists out, _prepare_input d wl p ri T m theta = Ok out)
  <-> broadcastable wl N = true
      /\ match ri, T with
         | Some r, _ => broadcastable r N = true
         | None, Some tk => broadcastable tk N = true
         | None, None => False
         end
      /\ match m with
         | Some mk => broadcastable mk N = true
         | None => True
         end
      /\ broadcastable (Array ds)
                       (List.length (fifth_of (snowLibrary ds p))) = true.
Proof.
  cbv zeta.
  rewrite <- (ones_like_length (_convert_to_array d)).
  split.
  - intros (out & H).
    apply prepare_input_Ok in H
      as (wls & ris & masses & Deff & Hwl & Hri & Hm & HD & _).
    split; [apply (np_op_Ok_iff dmul); eauto |].
    split.
    { destruct ri as [r |]; [apply (np_op_Ok_iff cmul_real); eauto |].
      destruct Hri as (tk & Ts & -> & HT & _).
      apply (np_op_Ok_iff dmul); eauto. }
    split.
    { destruct m as [mk |]; [apply (np_op_Ok_iff dmul); eauto | exact I]. }
    eapply broadcast_Ok_iff; eauto.
  - intros (Hwl & Hri & Hm & HD).
    unfold _prepare_input.
    apply (np_op_Ok_iff dmul) in Hwl as (wls & ->). simpl.
    assert (Hris : exists ris,
               match ri with
               | Some r => np_op cmul_real r (ones_like (_convert_to_array d))
               | None =>
                   match T with
                   | Some tk =>
                       Ts <- np_op dmul tk (ones_like (_convert_to_array d)) ;;
                       Ok (ice_n Ts (map (fun w => (_c / w)%D) wls))
                   | None => Raise MissingConfiguration
                   end
               end = Ok ris).
    { destruct ri as [r |]; [now apply (np_op_Ok_iff cmul_real) |].
      destruct T as [tk |]; [| contradiction].
      apply (np_op_Ok_iff dmul) in Hri as (Ts & ->). simpl. eauto. }
    destruct Hris as (ris & ->). simpl.
    destruct (snowLibrary (_convert_to_array d) p)
      as [[[[[[[[kappa beta] gamma] zeta1] alpha_eff] ar_mono] mass_prop] vel] area].
    simpl in HD.
    assert (Hmass : exists masses,
               match m with
               | Some mk => np_op dmul mk (ones_like (_convert_to_array d))
               | None => Ok mass_prop
               end = Ok masses).
    { destruct m as [mk |]; [now apply (np_op_Ok_iff dmul) | eauto]. }
    destruct Hmass as (masses & ->). simpl.
    apply (broadcast_Ok_iff
             (fun size ar => _compute_effective_size size ar theta))
      in HD as (Deff & ->).
    simpl. eauto.
Qed.

(** X2: With a refractive index given, the temperature is not looked at: any
    two temperatures, well-shaped or not, give the same result in each of
    the three operations. *)
Theorem temperature_ignored_with_ref_index d wl p (r : arg complex) T T' m theta :
  same_scattering p theta d wl (Some r) T m d wl (Some r) T' m.
Proof.
  apply same_scattering_of_prepare. reflexivity.
Qed.

(** X3: The incidence angle reaches the effective size and nothing else: two
    angles raise the same errors, and where the call returns, every other
    output and the length of the effective sizes are the same. *)
Theorem theta_only_sets_effective_size d wl p ri T m theta theta' :
  match _prepare_input d wl p ri T m theta,
        _prepare_input d wl p ri T m theta' with
  | Ok out, Ok out' =>
      List.length (out_Deff out) = List.length (out_Deff out')
      /\ out_Vol out = out_Vol out'
      /\ out_wavelength out = out_wavelength out'
      /\ out_K out = out_K out'
      /\ out_kappa out = out_kappa out' /\ out_gamma out = out_gamma out'
      /\ out_beta out = out_beta out' /\ out_zeta1 out = out_zeta1 out'
      /\ out_mass_prop out = out_mass_prop out'
      /\ out_vel out = out_vel out' /\ out_area out = out_area out'
  | Raise e, Raise e' => e = e'
  | _, _ => False
  end.
Proof.
  unfold _prepare_input.
  destruct (np_op dmul wl (ones_like (_convert_to_array d))) as [wls | e];
    simpl; [| reflexivity].
  destruct (match ri with
            | Some r => np_op cmul_real r (ones_like (_convert_to_array d))
            | None => _
            end) as [ris | e]; simpl; [| reflexivity].
  destruct (snowLibrary (_convert_to_array d) p)
    as [[[[[[[[kappa beta] gamma] zeta1] alpha_eff] ar_mono] mass_prop] vel] area].
  destruct (match m with
            | Some mk => np_op dmul mk (ones_like (_convert_to_array d))
            | None => Ok mass_prop
            end) as [masses | e]; simpl; [| reflexivity].
  pose proof (broadcast_shape
                (fun size ar => _compute_effective_size size ar theta)
                (fun size ar => _compute_effective_size size ar theta')
                (_convert_to_array d) alpha_eff) as H.
  destruct (broadcast (fun size ar => _compute_effective_size size ar theta) _ _);
    destruct (broadcast (fun size ar => _compute_effective_size size ar theta') _ _);
    simpl; try contradiction; [| assumption].
  repeat split; trivial.
Qed.

(** X4: Passing the mass of the model explicitly, as [snowMassVelocityArea]
    returns it, is the same as passing no mass, when the lookup returns one
    mass per diameter. *)
Theorem model_mass_is_default d wl p ri T theta (mass vel area : list double) :
  snowMassVelocityArea d p = (mass, vel, area) ->
  List.length mass = List.length (_convert_to_array d) ->
  same_scattering p theta d wl ri T (Some (Array mass)) d wl ri T None.
Proof.
  rewrite snowMassVelocityArea_unfold.
  intros Hm HL. apply same_scattering_of_prepare.
  unfold _prepare_input.
  destruct (np_op dmul wl (ones_like (_convert_to_array d))) as [wls | e];
    simpl; [| reflexivity].
  destruct (match ri with
            | Some r => np_op cmul_real r (ones_like (_convert_to_array d))
            | None => _
            end) as [ris | e]; simpl; [| reflexivity].
  destruct (snowLibrary (_convert_to_array d) p)
    as [[[[[[[[kappa beta] gamma] zeta1] alpha_eff] ar_mono] mass_prop] vel'] area'].
  simpl in Hm. injection Hm as <- _ _.
  simpl np_op.
  now rewrite broadcast_dmul_ones.
Qed.

(** X5: The last three outputs of [calcProperties] are what
    [snowMassVelocityArea] returns for the same diameters and label. *)
Theorem calcProperties_mass_velocity_area
        d wl p ri T m theta n Cext Cabs Csca Cbck asym phase mass vel area :
  calcProperties d wl p ri T m theta n
  = Ok (Cext, Cabs, Csca, Cbck, asym, phase, mass, vel, area) ->
  snowMassVelocityArea d p = (mass, vel, area).
Proof.
  rewrite calcProperties_unfold, snowMassVelocityArea_unfold.
  intros H. apply bind_Ok_inv in H as (out & Hout & H).
  apply prepare_input_Ok in Hout
    as (wls & ris & masses & Deff & _ & _ & _ & _ & ->).
  simpl in H. unfold with_lookup in H.
  destruct (ssrga _ _ _ _ _ _ _ _ n) as [[[[[c1 c2] c3] c4] c5] c6].
  injection H as _ _ _ _ _ _ <- <- <-. reflexivity.
Qed.

(** X6: [backscatVel] is [backscatter] paired with the velocity of
    [snowMassVelocityArea]: the same cross section, the same errors. *)
Theorem backscatVel_is_backscatter_and_velocity d wl p ri T m theta :
  backscatVel d wl p ri T m theta
  = (Cbck <- backscatter d wl p ri T m theta ;;
     Ok (Cbck, velocity_of (snowMassVelocityArea d p))).
Proof.
  rewrite backscatVel_unfold, backscatter_unfold, snowMassVelocityArea_unfold.
  destruct (_prepare_input d wl p ri T m theta) as [out | e] eqn:H; simpl;
    [| reflexivity].
  apply prepare_input_Ok in H
    as (wls & ris & masses & Deff & _ & _ & _ & _ & ->).
  reflexivity.
Qed.

(** X7: With more than one diameter, or none, every array that
    [_prepare_input] computes itself has one entry per diameter: the
    effective sizes, the wavelengths and, for a mass that is passed, the
    volumes. *)
Theorem prepared_lengths d wl p ri T m theta out :
  _prepare_input d wl p ri T m theta = Ok out ->
  List.length (_convert_to_array d) <> 1%nat ->
  List.length (out_Deff out) = List.length (_convert_to_array d)
  /\ List.length (out_wavelength out) = List.length (_convert_to_array d)
  /\ (m <> None ->
      List.length (out_Vol out) = List.length (_convert_to_array d)).
Proof.
  intros H HN.
  apply prepare_input_Ok in H
    as (wls & ris & masses & Deff & Hwl & _ & Hm & HD & ->).
  simpl.
  split; [| split].
  - apply broadcast_length in HD as [[H1 _] | [HD _]];
      [contradiction | assumption].
  - rewrite <- (ones_like_length (_convert_to_array d)) in HN.
    apply np_op_length in Hwl; [| assumption].
    now rewrite Hwl, ones_like_length.
  - intros Hne. destruct m as [mk |]; [| contradiction].
    rewrite <- (ones_like_length (_convert_to_array d)) in HN.
    apply np_op_length in Hm; [| assumption].
    now rewrite length_map, Hm, ones_like_length.
Qed.

(** X8: With a single diameter a wavelength array of any length is accepted
    and comes back with its own length: the diameter is the operand that
    is stretched. *)
Theorem single_diameter_keeps_wavelengths
        d (ws : list double) p ri T m theta out :
  List.length (_convert_to_array d) = 1%nat ->
  _prepare_input d (Array ws) p ri T m theta = Ok out ->
  List.length (out_wavelength out) = List.length ws.
Proof.
  intros H1 H.
  apply prepare_input_Ok in H
    as (wls & ris & masses & Deff & Hwl & _ & _ & _ & ->).
  simpl in *.
  apply broadcast_length in Hwl as [[Hw Hl] | [Hl _]]; [| assumption].
  now rewrite Hl, ones_like_length, H1, Hw.
Qed.

End ComputeMore.

(** ** The properties on the sample imports *)

Lemma model_mass_is_default_witness :
  same_scattering (consts := Sample.constants) (ext := Sample.externals)
    Sample.label Compute.theta_default
    Sample.diameters Sample.wavelength (Some Sample.ref_index) None
    (Some (Array [Fin 7; Fin 7]))
    Sample.diameters Sample.wavelength (Some Sample.ref_index) None None.
Proof.
  apply (model_mass_is_default
           (consts := Sample.constants) (ext := Sample.externals)
           Sample.diameters Sample.wavelength Sample.label
           (Some Sample.ref_index) None Compute.theta_default
           [Fin 7; Fin 7] [Fin 8; Fin 8] [Fin 9; Fin 9]);
    reflexivity.
Defined.

Lemma calcProperties_mass_velocity_area_witness :
  exists Cext Cabs Csca Cbck asym phase,
    Compute.calcProperties (consts := Sample.constants)
      (ext := Sample.externals)
      Sample.diameters Sample.wavelength Sample.label (Some Sample.ref_index)
      None None Compute.theta_default Compute.Nangles_default
    = Ok (Cext, Cabs, Csca, Cbck, asym, phase,
          [Fin 7; Fin 7], [Fin 8; Fin 8], [Fin 9; Fin 9])
    /\ Compute.snowMassVelocityArea (ext := Sample.externals)
         Sample.diameters Sample.label
       = ([Fin 7; Fin 7], [Fin 8; Fin 8], [Fin 9; Fin 9]).
Proof.
  do 6 eexists. split; [reflexivity |].
  apply (calcProperties_mass_velocity_area
           (consts := Sample.constants) (ext := Sample.externals)
           Sample.diameters Sample.wavelength Sample.label
           (Some Sample.ref_index) None None Compute.theta_default
           Compute.Nangles_default _ _ _ _ _ _ _ _ _ eq_refl).
Defined.

Lemma prepared_lengths_witness :
  exists out,
    Compute._prepare_input (consts := Sample.constants) (ext := Sample.externals)
      Sample.diameters Sample.wavelength Sample.label (Some Sample.ref_index)
      None (Some Sample.mass) Compute.theta_default = Ok out
    /\ List.length (out_Deff out) = 2%nat
    /\ List.length (out_wavelength out) = 2%nat
    /\ List.length (out_Vol out) = 2%nat.
Proof.
  eexists. split; [reflexivity |].
  assert (Hne : List.length (Compute._convert_to_array Sample.diameters)
                <> 1%nat) by (simpl; discriminate).
  destruct (prepared_lengths
              (consts := Sample.constants) (ext := Sample.externals)
              Sample.diameters Sample.wavelength Sample.label
              (Some Sample.ref_index) None (Some Sample.mass)
              Compute.theta_default _ eq_refl Hne) as (HD & Hw & HV).
  split; [exact HD |]. split; [exact Hw |]. apply HV. discriminate.
Defined.

Lemma single_diameter_witness :
  exists out,
    Compute._prepare_input (consts := Sample.constants) (ext := Sample.externals)
      (Scalar (Fin 0.001)) (Array [Fin 0.003; Fin 0.004; Fin 0.005])
      Sample.label (Some Sample.ref_index) None None Compute.theta_default
    = Ok out
    /\ List.length (out_wavelength out) = 3%nat
    /\ List.length (out_Deff out) = 1%nat.
Proof.
  eexists. split; [reflexivity |]. split; [| reflexivity].
  apply (single_diameter_keeps_wavelengths
           (consts := Sample.constants) (ext := Sample.externals)
           (Scalar (Fin 0.001)) [Fin 0.003; Fin 0.004; Fin 0.005]
           Sample.label (Some Sample.ref_index) None None
           Compute.theta_default _ eq_refl eq_refl).
Defined.

(* ================================================================== *)
(** * The effective size at particular angles and its range *)
(* ================================================================== *)

Section EffectiveSize.

Import Compute.

(** The denominator of the effective size on finite arguments. *)
Lemma effective_size_fin (s a t : R) :
  a <> 0 ->
  _compute_effective_size (Fin s) (Fin a) (Fin t)
  = (Fin s / Fin (sqrt (sin t * sin t + cos t / a * (cos t / a))))%D.
Proof.
  intros Ha. unfold _compute_effective_size.
  simpl np_sin. simpl np_cos.
  rewrite ddiv_fin by assumption.
  rewrite !dpow_2, dadd_fin.
  rewrite np_sqrt_fin by nra.
  reflexivity.
Qed.

Lemma sqrt_square_abs (x : R) : sqrt (x * x) = Rabs x.
Proof. apply (sqrt_Rsqr_abs x). Qed.




End EffectiveSize.



(* ================================================================== *)
(** * Non-finite values in the fall-speed models *)
(* ================================================================== *)

Lemma ddiv_zero_r (x : double) : (x / Fin 0)%D = NaN.
Proof.
  destruct x as [a |]; simpl; [| reflexivity].
  destruct (Req_dec_T 0 0); [reflexivity | congruence].
Qed.

Lemma ddiv_mul_zero_r (x y : double) : (x / (y * Fin 0))%D = NaN.
Proof.
  destruct x as [a |], y as [b |]; simpl; try reflexivity.
  destruct (Req_dec_T (b * 0) 0); [reflexivity | lra].
Qed.

Lemma np_sqrt_neg (a : R) : a < 0 -> np_sqrt (Fin a) = NaN.
Proof.
  intros Ha. unfold np_sqrt. destruct (Rlt_dec a 0); [reflexivity | lra].
Qed.

Lemma dpow_NaN_base (b : R) : b <> 0 -> (NaN ** Fin b)%D = NaN.
Proof.
  intros Hb. simpl. destruct (Req_dec_T b 0); [contradiction | reflexivity].
Qed.

Lemma dpow_NaN_exponent (a : R) : a <> 1 -> (Fin a ** NaN)%D = NaN.
Proof.
  intros Ha. simpl. destruct (Req_dec_T a 1); [contradiction | reflexivity].
Qed.

Lemma not_integer_2_5 (z : Z) : IZR z <> 2.5.
Proof.
  intros H.
  assert (H2 : IZR (2 * z) = IZR 5) by (rewrite mult_IZR; lra).
  apply eq_IZR in H2. lia.
Qed.

(** A negative number to the power 2.5 is nan. *)
Lemma dpow_neg_2_5 (a : R) : a < 0 -> (Fin a ** Fin 2.5)%D = NaN.
Proof.
  intros Ha. simpl. unfold pow_fin.
  destruct (Rlt_dec 0 a); [lra |].
  destruct (Req_dec_T a 0); [lra |].
  destruct (Req_dec_T (IZR (Int_part 2.5)) 2.5) as [E |]; [| reflexivity].
  now apply not_integer_2_5 in E.
Qed.

(** [x ** (1 - 1)] is 1 for every double. *)
Lemma dpow_one_minus_one (x : double) : (x ** (Fin 1 - Fin 1))%D = Fin 1.
Proof.
  rewrite dsub_fin. replace (1 - 1) with 0 by ring.
  destruct x as [a |]; simpl.
  - unfold pow_fin.
    destruct (Rlt_dec 0 a) as [Hpos |].
    + now rewrite Rpower_O.
    + destruct (Req_dec_T a 0).
      * destruct (Rlt_dec 0 0); [lra |].
        destruct (Req_dec_T 0 0); [reflexivity | congruence].
      * rewrite (Int_part_IZR 0).
        destruct (Req_dec_T 0 0); [reflexivity | congruence].
  - destruct (Req_dec_T 0 0); [reflexivity | congruence].
Qed.

Lemma np_log10_fin (x : R) : 0 < x -> np_log10 (Fin x) = Fin (ln x / ln 10).
Proof.
  intros Hx. unfold np_log10. destruct (Rlt_dec 0 x); [reflexivity | lra].
Qed.

Lemma ln_10_pos : 0 < ln 10.
Proof.
  rewrite <- ln_1. apply ln_increasing; lra.
Qed.

(** Negation goes through products, quotients and differences, and the
    absolute value forgets it. *)
Lemma dmul_dopp_l (x y : double) : (- x * y)%D = (- (x * y))%D.
Proof. destruct x, y; simpl; trivial. f_equal. ring. Qed.

Lemma dmul_dopp_r (x y : double) : (x * - y)%D = (- (x * y))%D.
Proof. destruct x, y; simpl; trivial. f_equal. ring. Qed.

Lemma ddiv_dopp_l (x y : double) : (- x / y)%D = (- (x / y))%D.
Proof.
  destruct x as [a |], y as [b |]; simpl; trivial.
  destruct (Req_dec_T b 0); simpl; [reflexivity |].
  f_equal. now field.
Qed.

Lemma dsub_dopp (x y : double) : (- x - - y)%D = (- (x - y))%D.
Proof. destruct x, y; simpl; trivial. f_equal. ring. Qed.

Lemma np_abs_dopp (x : double) : np_abs (- x)%D = np_abs x.
Proof. destruct x; simpl; trivial. f_equal. apply Rabs_Ropp. Qed.

Section FallSpeedEdges.

Context {consts : Constants}.
Import FallSpeed.

(** X12: In air denser than the reference the correction returns nan for every
    entry, whatever the velocities and temperatures: the logarithm of the
    density ratio is negative and is raised to the power 2.5. *)
Theorem correction_undefined_in_denser_air
        (vel : list double) (rho_air rho0 : R) (temperature T0 : double) :
  0 < rho0 -> rho0 < rho_air ->
  correctionFooteduToit vel (Fin rho_air) temperature (Fin rho0) T0
  = map (fun _ => NaN) vel.
Proof.
  intros H0 Hlt.
  unfold correctionFooteduToit.
  rewrite (ddiv_fin rho0 rho_air) by lra.
  assert (Hr : 0 < rho0 / rho_air) by (apply Rdiv_lt_0_compat; lra).
  rewrite np_log10_fin by assumption.
  assert (Hneg : ln (rho0 / rho_air) / ln 10 < 0).
  { assert (H10 := ln_10_pos).
    assert (Hln : ln (rho0 / rho_air) < 0).
    { rewrite <- ln_1. apply ln_increasing; [assumption |].
      apply (Rmult_lt_reg_r rho_air); [lra |].
      replace (rho0 / rho_air * rho_air) with rho0 by (field; lra). lra. }
    apply (Rmult_lt_reg_r (ln 10)); [assumption |].
    replace (ln (rho0 / rho_air) / ln 10 * ln 10) with (ln (rho0 / rho_air))
      by (field; lra).
    lra. }
  rewrite dpow_neg_2_5 by assumption.
  cbn [dmul dsub lift2].
  rewrite dpow_NaN_exponent by lra.
  apply map_ext. intros [v |]; reflexivity.
Qed.


(** X14: A zero diameter gives a non-finite velocity in the three
    Reynolds-number models, whatever the other arguments: the diameter is
    what they divide by last, and numpy does not raise on a division by
    zero. *)
Theorem zero_diameter_not_finite
        (mass area rho_air nu_air as_ratio k : double) :
  Boehm1989 (Fin 0) mass area rho_air nu_air = NaN
  /\ Boehm1992 (Fin 0) mass area rho_air nu_air as_ratio = NaN
  /\ HeymsfieldWestbrook2010 (Fin 0) mass area rho_air nu_air k = NaN.
Proof.
  split; [| split].
  - unfold Boehm1989. now rewrite ddiv_zero_r.
  - unfold Boehm1992. now rewrite ddiv_zero_r.
  - unfold HeymsfieldWestbrook2010. now rewrite ddiv_mul_zero_r.
Qed.

(** X15: The model of Khvorostyanov and Curry takes the absolute value of the
    net weight: a mass and its negative give the same velocity. *)
Theorem KhvorostyanovCurry2005_even_in_mass
        (diam mass area rho_air nu_air : double) (smooth : bool) :
  KhvorostyanovCurry2005 diam (- mass)%D area rho_air nu_air smooth
  = KhvorostyanovCurry2005 diam mass area rho_air nu_air smooth.
Proof.
  unfold KhvorostyanovCurry2005.
  rewrite ddiv_dopp_l, dmul_dopp_r, !dmul_dopp_l, dsub_dopp, np_abs_dopp.
  reflexivity.
Qed.

(** X16: With the exponent [k = 1] the area ratio drops out of the Best number
    of Heymsfield and Westbrook: the velocity is the same for every area. *)
Theorem HeymsfieldWestbrook2010_k1_ignores_area
        (diaSpec mass area area' rho_air nu_air : double) :
  HeymsfieldWestbrook2010 diaSpec mass area rho_air nu_air (Fin 1)
  = HeymsfieldWestbrook2010 diaSpec mass area' rho_air nu_air (Fin 1).
Proof.
  unfold HeymsfieldWestbrook2010.
  now rewrite !dpow_one_minus_one.
Qed.

End FallSpeedEdges.

(** ** Drag coefficients *)

Lemma psi_of_le_1 (X0i X : R) : psi_of X0i X <= 1.
Proof.
  unfold psi_of.
  assert (Ht : 0 <= X * X0i * (X * X0i)) by nra.
  apply (Rmult_le_reg_r (1 + 1.6 * (X * X0i * (X * X0i)))); [lra |].
  replace ((1 + X * X0i * (X * X0i)) / (1 + 1.6 * (X * X0i * (X * X0i)))
           * (1 + 1.6 * (X * X0i * (X * X0i))))
    with (1 + X * X0i * (X * X0i)) by (field; lra).
  lra.
Qed.

Lemma Cd_of_above (d0 c0 X0i X : R) :
  0 < d0 -> 0 < c0 -> 0 < X -> c0 < Cd_of d0 c0 X0i X.
Proof.
  intros Hd Hc HX. unfold Cd_of.
  assert (HRe := Re_of_pos d0 c0 Hd Hc X HX).
  assert (Hpsi := psi_of_pos X0i X).
  assert (Hpsi1 := psi_of_le_1 X0i X).
  set (B := 1 + d0 / sqrt (Re_of d0 c0 X)).
  assert (HB : 1 < B).
  { unfold B.
    assert (0 < d0 / sqrt (Re_of d0 c0 X))
      by (apply Rdiv_lt_0_compat; [assumption | now apply sqrt_lt_R0]).
    lra. }
  apply (Rmult_lt_reg_r (psi_of X0i X)); [assumption |].
  replace (c0 * (B * B) / psi_of X0i X * psi_of X0i X) with (c0 * (B * B))
    by (field; lra).
  assert (1 < B * B) by nra.
  assert (c0 * psi_of X0i X <= c0 * 1) by (apply Rmult_le_compat_l; lra).
  nra.
Qed.



Lemma correction_undefined_witness :
  FallSpeed.correctionFooteduToit
    [Fin 1; Fin 2] (Fin 1.3) FallSpeed.T0_default _rho0 FallSpeed.T0_default
  = map (fun _ => NaN) [Fin 1; Fin 2].
Proof.
  apply (correction_undefined_in_denser_air
           [Fin 1; Fin 2] 1.3 1.2038631624242195); lra.
Defined.


(* ================================================================== *)
(** * A negative mass *)
(* ================================================================== *)

Lemma div_neg_pos (x y : R) : x < 0 -> 0 < y -> x / y < 0.
Proof.
  intros Hx Hy. unfold Rdiv.
  assert (0 < / y) by (now apply Rinv_0_lt_compat). nra.
Qed.

(** Propagation of nan through the rest of a computation. *)
Ltac dnan :=
  repeat first
    [ progress cbn [dadd dsub dmul dopp lift1 lift2 np_sqrt np_exp
                    np_maximum np_minimum]
    | rewrite dpow_half
    | rewrite dpow_NaN_base by lra ].

Section NegativeMass.
Context {consts : Constants}.
Import FallSpeed.

Variables d a rho nu gr m : R.
Hypothesis d_pos : 0 < d.
Hypothesis a_pos : 0 < a.
Hypothesis rho_pos : 0 < rho.
Hypothesis nu_pos : 0 < nu.
Hypothesis g_val : _g = Fin gr.
Hypothesis g_pos : 0 < gr.
Hypothesis m_neg : m < 0.

Lemma Boehm1989_negative_mass :
  Boehm1989 (Fin d) (Fin m) (Fin a) (Fin rho) (Fin nu) = NaN.
Proof.
  assert (Hpi := PI_RGT_0).
  assert (Hdd : 0 < d * d) by nra.
  cbv beta delta [Boehm1989 g]. rewrite g_val.
  dnorm ltac:(pos).
  step_let q.
  assert (Hq : 0 < q) by (unfold q; pos).
  step_let eta.
  assert (Heta : 0 < eta) by (unfold eta; pos).
  dnorm ltac:(pos).
  step_let X.
  assert (HX : X < 0).
  { unfold X. apply div_neg_pos; [| pos].
    assert (0 < gr * rho) by pos. nra. }
  rewrite !dpow_half, (np_sqrt_neg X) by assumption.
  cbv zeta. dnan. reflexivity.
Qed.

Lemma HeymsfieldWestbrook2010_negative_mass (k : R) :
  HeymsfieldWestbrook2010 (Fin d) (Fin m) (Fin a) (Fin rho) (Fin nu) (Fin k)
  = NaN.
Proof.
  assert (Hpi := PI_RGT_0).
  assert (Hdd : 0 < d * d) by nra.
  cbv beta delta [HeymsfieldWestbrook2010 g]. rewrite g_val.
  step_let delta_0. step_let C_0.
  assert (Hd0 : 0 < delta_0) by (unfold delta_0; lra).
  assert (HC0 : 0 < C_0) by (unfold C_0; lra).
  dnorm ltac:(pos).
  step_let q.
  assert (Hq : 0 < q) by (unfold q; pos).
  step_let eta.
  assert (Heta : 0 < eta) by (unfold eta; pos).
  dnorm ltac:(pos).
  step_let X.
  assert (HX : X < 0).
  { unfold X, delta_0. apply div_neg_pos; [| pos].
    assert (0 < gr * rho) by pos. nra. }
  rewrite !dpow_half, (np_sqrt_neg X) by assumption.
  cbv zeta. dnan. reflexivity.
Qed.

End NegativeMass.

(* ================================================================== *)
(** * Dependence of the velocities on area and turbulence exponent *)
(* ================================================================== *)

Lemma div_lt_contravar (c x y : R) : 0 < c -> 0 < x -> x < y -> c / y < c / x.
Proof.
  intros Hc Hx Hxy. unfold Rdiv.
  apply Rmult_lt_compat_l; [assumption |].
  apply Rinv_lt_contravar; [nra | assumption].
Qed.

Section AreaAndExponent.
Context {consts : Constants}.
Import FallSpeed.

Variables d rho nu gr : R.
Hypothesis d_pos : 0 < d.
Hypothesis rho_pos : 0 < rho.
Hypothesis nu_pos : 0 < nu.
Hypothesis g_val : _g = Fin gr.
Hypothesis g_pos : 0 < gr.

(** The area ratio, the two Best numbers and the velocities as functions
    of the Best number. *)
Local Abbreviation q a := (a / (PI / 4 * (d * d))).
Local Abbreviation Xstar a k m :=
  (8 * rho * m * gr / (PI * Rpower (q a) (1 - k) * (nu * rho * (nu * rho)))).
Local Abbreviation hw X :=
  (nu * rho
   * (0.25 * (8 * 8)
      * (bracket (4 * sqrt X / (8 * 8 * sqrt 0.35))
         * bracket (4 * sqrt X / (8 * 8 * sqrt 0.35))))
   / (rho * d)).
Local Abbreviation X89 a m :=
  (8 * m * gr * rho / (PI * (nu * rho * (nu * rho)) * Rpower (q a) 0.25)).
Local Abbreviation b89 X :=
  (8.5 * (bracket (0.1519 * sqrt X) * bracket (0.1519 * sqrt X))
   * (nu * rho) / d / rho).

Lemma q_pos (a : R) : 0 < a -> 0 < q a.
Proof.
  intros Ha. assert (Hpi := PI_RGT_0). assert (Hdd : 0 < d * d) by nra. pos.
Qed.

Lemma q_increasing (a1 a2 : R) : a1 < a2 -> q a1 < q a2.
Proof.
  intros H. assert (Hpi := PI_RGT_0). assert (Hdd : 0 < d * d) by nra.
  apply div_lt_compat; [pos | assumption].
Qed.

Lemma HeymsfieldWestbrook2010_fin_k (a k m : R) :
  0 < a -> 0 < m ->
  HeymsfieldWestbrook2010 (Fin d) (Fin m) (Fin a) (Fin rho) (Fin nu) (Fin k)
  = Fin (hw (Xstar a k m)).
Proof.
  intros Ha Hm.
  assert (Hpi := PI_RGT_0).
  assert (Hdd : 0 < d * d) by nra.
  cbv beta delta [HeymsfieldWestbrook2010 g]. rewrite g_val.
  step_let delta_0. step_let C_0.
  assert (Hd0 : 0 < delta_0) by (unfold delta_0; lra).
  assert (HC0 : 0 < C_0) by (unfold C_0; lra).
  dnorm ltac:(pos).
  step_let q'.
  assert (Hq : 0 < q') by (unfold q'; pos).
  step_let eta.
  assert (Heta : 0 < eta) by (unfold eta; pos).
  dnorm ltac:(pos).
  step_let X.
  assert (HX : 0 < X) by (unfold X; pos).
  dnorm ltac:(pos).
  step_let Re. dnorm ltac:(pos).
  cbv zeta. reflexivity.
Qed.

Lemma Xstar_pos (a k m : R) : 0 < a -> 0 < m -> 0 < Xstar a k m.
Proof.
  intros Ha Hm. assert (Hpi := PI_RGT_0). pos.
Qed.

Lemma hw_pos (X : R) : 0 < X -> 0 < hw X.
Proof.
  intros HX.
  assert (Hb : 0 < bracket (4 * sqrt X / (8 * 8 * sqrt 0.35)))
    by (apply bracket_pos; pos).
  pos.
Qed.

Lemma hw_increasing (X1 X2 : R) : 0 < X1 -> X1 < X2 -> hw X1 < hw X2.
Proof.
  intros H1 H12.
  assert (Hs1 : 0 < sqrt X1) by pos.
  assert (Hs : sqrt X1 < sqrt X2) by (apply sqrt_lt_1_alt; lra).
  assert (Hk : 0 < 8 * 8 * sqrt 0.35) by pos.
  assert (Hb : bracket (4 * sqrt X1 / (8 * 8 * sqrt 0.35))
               * bracket (4 * sqrt X1 / (8 * 8 * sqrt 0.35))
               < bracket (4 * sqrt X2 / (8 * 8 * sqrt 0.35))
                 * bracket (4 * sqrt X2 / (8 * 8 * sqrt 0.35))).
  { apply sqr_bracket_lt; [pos |].
    apply div_lt_compat; [assumption | lra]. }
  apply div_lt_compat; [pos |].
  apply Rmult_lt_compat_l; [pos |].
  apply Rmult_lt_compat_l; [lra | assumption].
Qed.

Lemma Xstar_increasing_in_mass (a k m1 m2 : R) :
  0 < a -> m1 < m2 -> Xstar a k m1 < Xstar a k m2.
Proof.
  intros Ha Hm. assert (Hpi := PI_RGT_0).
  apply div_lt_compat; [pos |].
  apply Rmult_lt_compat_r; [assumption |].
  apply Rmult_lt_compat_l; [pos | assumption].
Qed.

Lemma Xstar_decreasing_in_area (a1 a2 k m : R) :
  0 < a1 -> a1 < a2 -> k < 1 -> 0 < m -> Xstar a2 k m < Xstar a1 k m.
Proof.
  intros Ha Ha12 Hk Hm. assert (Hpi := PI_RGT_0).
  assert (Hq1 := q_pos a1 Ha).
  assert (Hq := q_increasing a1 a2 Ha12).
  assert (HP : Rpower (q a1) (1 - k) < Rpower (q a2) (1 - k))
    by (apply Rlt_Rpower_l; lra).
  assert (HP1 : 0 < Rpower (q a1) (1 - k)) by pos.
  apply div_lt_contravar; [pos | pos |].
  apply Rmult_lt_compat_r; [pos |].
  apply Rmult_lt_compat_l; assumption.
Qed.

Lemma b89_increasing (X1 X2 : R) : 0 < X1 -> X1 < X2 -> b89 X1 < b89 X2.
Proof.
  intros H1 H12.
  assert (Hs1 : 0 < sqrt X1) by pos.
  assert (Hs : sqrt X1 < sqrt X2) by (apply sqrt_lt_1_alt; lra).
  assert (Hb : bracket (0.1519 * sqrt X1) * bracket (0.1519 * sqrt X1)
               < bracket (0.1519 * sqrt X2) * bracket (0.1519 * sqrt X2))
    by (apply sqr_bracket_lt; lra).
  repeat (apply div_lt_compat; [assumption |]).
  apply Rmult_lt_compat_r; [pos |].
  apply Rmult_lt_compat_l; [lra | assumption].
Qed.

Lemma X89_pos (a m : R) : 0 < a -> 0 < m -> 0 < X89 a m.
Proof.
  intros Ha Hm. assert (Hpi := PI_RGT_0). pos.
Qed.

Lemma X89_decreasing_in_area (a1 a2 m : R) :
  0 < a1 -> a1 < a2 -> 0 < m -> X89 a2 m < X89 a1 m.
Proof.
  intros Ha Ha12 Hm. assert (Hpi := PI_RGT_0).
  assert (Hq1 := q_pos a1 Ha).
  assert (Hq := q_increasing a1 a2 Ha12).
  assert (HP : Rpower (q a1) 0.25 < Rpower (q a2) 0.25)
    by (apply Rlt_Rpower_l; lra).
  assert (HP1 : 0 < Rpower (q a1) 0.25) by pos.
  apply div_lt_contravar; [pos | pos |].
  apply Rmult_lt_compat_l; [pos | assumption].
Qed.

Lemma Boehm1989_decreasing_in_area (a1 a2 m : R) :
  0 < a1 -> a1 < a2 -> 0 < m ->
  Boehm1989 (Fin d) (Fin m) (Fin a2) (Fin rho) (Fin nu)
  <d Boehm1989 (Fin d) (Fin m) (Fin a1) (Fin rho) (Fin nu).
Proof.
  intros Ha Ha12 Hm.
  rewrite (Boehm1989_fin d a1 rho nu gr), (Boehm1989_fin d a2 rho nu gr)
    by (assumption || lra).
  simpl. apply b89_increasing.
  - apply X89_pos; lra.
  - now apply X89_decreasing_in_area.
Qed.

Lemma HeymsfieldWestbrook2010_decreasing_in_area (a1 a2 k m : R) :
  0 < a1 -> a1 < a2 -> k < 1 -> 0 < m ->
  HeymsfieldWestbrook2010 (Fin d) (Fin m) (Fin a2) (Fin rho) (Fin nu) (Fin k)
  <d HeymsfieldWestbrook2010 (Fin d) (Fin m) (Fin a1) (Fin rho) (Fin nu) (Fin k).
Proof.
  intros Ha Ha12 Hk Hm.
  rewrite !HeymsfieldWestbrook2010_fin_k by (assumption || lra).
  simpl. apply hw_increasing.
  - apply Xstar_pos; lra.
  - now apply Xstar_decreasing_in_area.
Qed.

Lemma HeymsfieldWestbrook2010_positive_k (a k m : R) :
  0 < a -> 0 < m ->
  Fin 0 <d HeymsfieldWestbrook2010 (Fin d) (Fin m) (Fin a) (Fin rho) (Fin nu)
                                   (Fin k).
Proof.
  intros Ha Hm.
  rewrite HeymsfieldWestbrook2010_fin_k by assumption.
  simpl. apply hw_pos. now apply Xstar_pos.
Qed.

Lemma HeymsfieldWestbrook2010_increasing_k (a k m1 m2 : R) :
  0 < a -> 0 < m1 -> m1 < m2 ->
  HeymsfieldWestbrook2010 (Fin d) (Fin m1) (Fin a) (Fin rho) (Fin nu) (Fin k)
  <d HeymsfieldWestbrook2010 (Fin d) (Fin m2) (Fin a) (Fin rho) (Fin nu) (Fin k).
Proof.
  intros Ha H1 H12.
  rewrite !HeymsfieldWestbrook2010_fin_k by (assumption || lra).
  simpl. apply hw_increasing.
  - now apply Xstar_pos.
  - now apply Xstar_increasing_in_mass.
Qed.

Section KCArea.

Variables (ri : R) (smooth : bool).
Hypothesis ice_val : _ice_density = Fin ri.
Hypothesis ice_denser : rho < ri.

Lemma KhvorostyanovCurry2005_decreasing_in_area (a1 a2 m : R) :
  0 < a1 -> a1 < a2 -> 0 < m ->
  KhvorostyanovCurry2005 (Fin d) (Fin m) (Fin a2) (Fin rho) (Fin nu) smooth
  <d KhvorostyanovCurry2005 (Fin d) (Fin m) (Fin a1) (Fin rho) (Fin nu) smooth.
Proof.
  intros Ha1 Ha12 Hm.
  assert (Ha2 : 0 < a2) by lra.
  destruct (KhvorostyanovCurry2005_fin d a1 rho nu gr d_pos Ha1 rho_pos nu_pos
              g_val g_pos ri m smooth ice_val ice_denser Hm) as (HF & HX1 & ->).
  destruct (KhvorostyanovCurry2005_fin d a2 rho nu gr d_pos Ha2 rho_pos nu_pos
              g_val g_pos ri m smooth ice_val ice_denser Hm) as (_ & HX2 & ->).
  simpl.
  set (F := m * gr - rho * (m / ri) * gr) in *.
  assert (Hdd : 0 < d * d) by nra.
  set (N := 2 * F * rho * (d * d)) in *.
  set (E := nu * rho * (nu * rho)) in *.
  assert (HN : 0 < N) by (unfold N; pos).
  assert (HE : 0 < E) by (unfold E; pos).
  set (X1 := N / (a1 * E)) in *.
  set (X2 := N / (a2 * E)) in *.
  assert (HX : X2 < X1).
  { unfold X1, X2. apply div_lt_contravar; [assumption | pos |].
    now apply Rmult_lt_compat_r. }
  set (Cd := fun X => if smooth then Cd_of 9.06 0.292 (1 / 6.7e6) X
                      else Cd_of 5.83 0.6 0.35714285714285714285e-6 X).
  change (sqrt (2 * F / (rho * a2 * Cd X2)) < sqrt (2 * F / (rho * a1 * Cd X1))).
  assert (HCd : forall X, 0 < X -> 0 < Cd X).
  { intros X HXp. unfold Cd.
    destruct smooth; apply Cd_of_pos; solve [lra | assumption]. }
  assert (Hr : X2 / Cd X2 < X1 / Cd X1).
  { unfold Cd.
    destruct smooth; apply X_over_Cd_increasing; solve [lra | assumption]. }
  assert (HC1 := HCd _ HX1). assert (HC2 := HCd _ HX2).
  assert (Hgen : forall a' : R,
             0 < a' -> 0 < Cd (N / (a' * E)) ->
             2 * F / (rho * a' * Cd (N / (a' * E)))
             = E / (rho * (d * d) * rho)
               * (N / (a' * E) / Cd (N / (a' * E)))).
  { intros a' Ha' Hc.
    set (c := Cd (N / (a' * E))) in *. clearbody c.
    unfold N. field. repeat split; lra. }
  fold X1 X2 in Hgen.
  unfold X1 at 1, X2 at 1.
  rewrite (Hgen a1 Ha1 HC1), (Hgen a2 Ha2 HC2).
  fold X1 X2.
  assert (HK : 0 < E / (rho * (d * d) * rho)) by pos.
  apply sqrt_lt_1_alt. split.
  - left. apply Rmult_lt_0_compat; [assumption | pos].
  - apply Rmult_lt_compat_l; assumption.
Qed.

End KCArea.

End AreaAndExponent.

(* ================================================================== *)
(** * Boehm 1992 at every aspect ratio *)
(* ================================================================== *)

Section Boehm1992_ratio.
Context {consts : Constants}.
Import FallSpeed.

Variables d a rho nu gr al : R.
Hypothesis d_pos : 0 < d.
Hypothesis a_pos : 0 < a.
Hypothesis rho_pos : 0 < rho.
Hypothesis nu_pos : 0 < nu.
Hypothesis g_val : _g = Fin gr.
Hypothesis g_pos : 0 < gr.
Hypothesis al_pos : 0 < al.

Local Abbreviation q := (a / (PI / 4 * (d * d))).
Local Abbreviation gama_big_of :=
  (Rmax (1 * 1)
        (Rmin (1 * 1.98)
              (3.76 - 8.41 * al + 9.18 * (al * al) - 3.53 * (al * al * al)))).
Local Abbreviation C_DP_of :=
  (Rmax 1 (q * (1.46 * q - 0.46))
   * Rmax (0.292 * 1 * gama_big_of) (0.492 - 0.2 / sqrt al)).
Local Abbreviation gama_small_of :=
  ((4.5 * (1 * 1) * Rmax al (1 * 1) - C_DP_of) / 4 / C_DP_of).
Local Abbreviation X92 m :=
  (8 * m * gr * rho
   / (PI * (nu * rho * (nu * rho)) * Rmax al (1 * 1)
      * Rmax (Rpower q 0.25) q)).

Lemma C_DP_of_pos : 0 < C_DP_of.
Proof.
  apply Rmult_lt_0_compat.
  - apply Rlt_le_trans with 1; [lra | apply Rmax_l].
  - apply Rlt_le_trans with (0.292 * 1 * gama_big_of); [| apply Rmax_l].
    assert (1 * 1 <= gama_big_of) by apply Rmax_l. lra.
Qed.

Lemma X92_denominator_pos :
  0 < PI * (nu * rho * (nu * rho)) * Rmax al (1 * 1) * Rmax (Rpower q 0.25) q.
Proof.
  assert (Hpi := PI_RGT_0).
  assert (Hdd : 0 < d * d) by nra.
  assert (Hq : 0 < q) by pos.
  apply Rmult_lt_0_compat;
    [ apply Rmult_lt_0_compat; [pos |];
      apply Rlt_le_trans with (1 * 1); [lra | apply Rmax_r]
    | apply Rlt_le_trans with q; [assumption | apply Rmax_r] ].
Qed.

Lemma X92_pos (m : R) : 0 < m -> 0 < X92 m.
Proof.
  intros Hm. assert (HD := X92_denominator_pos).
  apply Rdiv_lt_0_compat; [pos | assumption].
Qed.

Lemma X92_increasing (m1 m2 : R) : m1 < m2 -> X92 m1 < X92 m2.
Proof.
  intros Hm. assert (HD := X92_denominator_pos).
  apply div_lt_compat; [assumption |].
  repeat (apply Rmult_lt_compat_r; [assumption |]). lra.
Qed.

Lemma Boehm1992_fin_ratio (m : R) :
  0 < m ->
  Boehm1992 (Fin d) (Fin m) (Fin a) (Fin rho) (Fin nu) (Fin al)
  = Fin (N_Re_of C_DP_of 2.8e6 gama_small_of (X92 m) * (nu * rho) / d / rho).
Proof.
  intros Hm.
  assert (Hpi := PI_RGT_0).
  assert (Hdd : 0 < d * d) by nra.
  assert (Hq : 0 < q) by pos.
  assert (HC := C_DP_of_pos).
  assert (H1 : 0 < Rmax al (1 * 1)).
  { apply Rlt_le_trans with (1 * 1); [lra | apply Rmax_r]. }
  assert (HQ : 0 < Rmax (Rpower q 0.25) q).
  { apply Rlt_le_trans with q; [assumption | apply Rmax_r]. }
  assert (HX := X92_pos m Hm).
  cbv beta delta [Boehm1992 g np_ones_like]. rewrite g_val.
  dnorm ltac:(pos).
  step_let q'. step_let eta. inline_let. step_let X_0.
  assert (Heta : 0 < eta) by (unfold eta; pos).
  assert (HX0 : 0 < X_0) by (unfold X_0; lra).
  dnorm ltac:(pos).
  step_let X'. inline_let.
  dnorm ltac:(pos).
  step_let gama_big'.
  dnorm ltac:(pos).
  step_let C_DP'. dnorm ltac:(pos).
  step_let C'.
  assert (HCp := Cp_pos C' X_0 HC X').
  dnorm ltac:(pos).
  change (C' * (1 + 1.6 * (X' / X_0 * (X' / X_0))) / (1 + X' / X_0 * (X' / X_0)))
    with (Cp C' X_0 X').
  step_let C_DP_prim.
  assert (Hs : 0 < sqrt (X' / C_DP_prim)) by pos.
  dnorm ltac:(pos).
  step_let beta.
  assert (Hbeta : 0 < beta)
    by (apply (bracket_pos (C_DP_prim / 6 / 1 * sqrt (X' / C_DP_prim))); pos).
  dnorm ltac:(pos).
  step_let N_Re0. dnorm ltac:(pos).
  step_let C_DO'. dnorm ltac:(pos).
  step_let gama_small'. dnorm ltac:(pos).
  step_let N_Re. dnorm ltac:(pos).
  cbv zeta. reflexivity.
Qed.

Lemma Boehm1992_positive_ratio (m : R) :
  0 < m ->
  Fin 0 <d Boehm1992 (Fin d) (Fin m) (Fin a) (Fin rho) (Fin nu) (Fin al).
Proof.
  intros Hm. rewrite Boehm1992_fin_ratio by assumption. simpl.
  assert (HN : 0 < N_Re_of C_DP_of 2.8e6 gama_small_of (X92 m)).
  { apply N_Re_of_pos; [apply C_DP_of_pos | now apply X92_pos]. }
  pos.
Qed.

Lemma Boehm1992_increasing_ratio (m1 m2 : R) :
  0 < m1 -> m1 < m2 ->
  Boehm1992 (Fin d) (Fin m1) (Fin a) (Fin rho) (Fin nu) (Fin al)
  <d Boehm1992 (Fin d) (Fin m2) (Fin a) (Fin rho) (Fin nu) (Fin al).
Proof.
  intros H1 H12.
  rewrite !Boehm1992_fin_ratio by (assumption || lra). simpl.
  repeat (apply div_lt_compat; [assumption |]).
  apply Rmult_lt_compat_r; [pos |].
  apply N_Re_of_increasing;
    [apply C_DP_of_pos | lra | now apply X92_pos | now apply X92_increasing].
Qed.

Lemma Boehm1992_negative_mass (m : R) :
  m < 0 ->
  Boehm1992 (Fin d) (Fin m) (Fin a) (Fin rho) (Fin nu) (Fin al) = NaN.
Proof.
  intros Hm.
  assert (Hpi := PI_RGT_0).
  assert (Hdd : 0 < d * d) by nra.
  assert (Hq : 0 < q) by pos.
  assert (HC := C_DP_of_pos).
  assert (H1 : 0 < Rmax al (1 * 1)).
  { apply Rlt_le_trans with (1 * 1); [lra | apply Rmax_r]. }
  assert (HQ : 0 < Rmax (Rpower q 0.25) q).
  { apply Rlt_le_trans with q; [assumption | apply Rmax_r]. }
  assert (HX : X92 m < 0).
  { apply div_neg_pos; [| apply X92_denominator_pos].
    assert (0 < gr * rho) by pos. nra. }
  cbv beta delta [Boehm1992 g np_ones_like]. rewrite g_val.
  dnorm ltac:(pos).
  step_let q'. step_let eta. inline_let. step_let X_0.
  assert (Heta : 0 < eta) by (unfold eta; pos).
  assert (HX0 : 0 < X_0) by (unfold X_0; lra).
  dnorm ltac:(pos).
  step_let X'. inline_let.
  assert (Hsq : 0 <= X' / X_0 * (X' / X_0)) by nra.
  dnorm ltac:(pos).
  step_let gama_big'.
  dnorm ltac:(pos).
  step_let C_DP'. dnorm ltac:(pos).
  step_let C'.
  assert (HCp := Cp_pos C' X_0 HC X').
  dnorm ltac:(pos).
  change (C' * (1 + 1.6 * (X' / X_0 * (X' / X_0))) / (1 + X' / X_0 * (X' / X_0)))
    with (Cp C' X_0 X').
  step_let C_DP_prim.
  dnorm ltac:(pos).
  rewrite (np_sqrt_neg (X' / C_DP_prim)) by (now apply div_neg_pos).
  cbv zeta.
  repeat (progress (dnan; dnorm ltac:(pos))).
  reflexivity.
Qed.

End Boehm1992_ratio.

(* ================================================================== *)
(** * The terminal velocities away from the default arguments *)
(* ================================================================== *)






(** ** The properties on the sample constants *)





